(** * Live vehicle tracking: the connection manager and the location channel

    A shallow embedding of [tracking.py]: the [ConnectionManager] class
    ([connect], [disconnect], [broadcast]), the module-level cache
    [vehicle_locations] and the websocket endpoint [websocket_location].

    Python objects are modelled as follows.
    - A [WebSocket] object is its identity (a [positive]): Starlette's
      [WebSocket] compares and hashes by identity, so [in] and
      [list.remove] on a list of websockets compare identities.
    - [active_connections : Dict[int, List[WebSocket]]] is a
      [gmap Z (list positive)]; the lists keep order and duplicates.
    - [vehicle_locations] is a [gmap Z Json], [Json] being the type of the
      values [json.loads] returns.
    - Effects (mutation of the two dictionaries, text frames written to
      sockets, lines printed) are threaded through a state-and-exception
      monad [M]; a raised exception keeps the mutations made so far, as
      in Python.
    - What the outside world decides (whether the handshake succeeds,
      what [receive_text] yields, which [send_text] calls raise) is an
      explicit argument of the operation that asks for it.
    - The coroutines are modelled at two grains. [broadcast], [turn],
      [receive_loop] and [step] run one coroutine from a [receive_text]
      to the next with no other coroutine in between. [wake] and
      [schedule], further down, run every coroutine one [await] at a
      time, in any order: there the loop of [broadcast] reads the
      registry's list again after each [send_text], as the source
      does. [uninterrupted_turn] relates the two. *)

From Stdlib Require Import Ascii Floats.
From stdpp Require Import gmap strings list fin_maps.

Abbreviation WebSocket := positive (only parsing).
Abbreviation VehicleId := Z (only parsing).

(** The exceptions the modelled code can meet, all subclasses of Python's
    [Exception]: what [except Exception] catches. Signals that derive
    from [BaseException] only (task cancellation, interpreter exit) come
    from the scheduler and are not modelled. *)
Inductive exn : Set :=
  | WebSocketDisconnect
  | JSONDecodeError
  | RuntimeError
  | KeyError
  | ValueError.

Inductive Result (A : Type) : Type :=
  | Returned (a : A)
  | Raised (e : exn).
Arguments Returned {A} a.
Arguments Raised {A} e.

(** The lines the module prints. *)
Inductive Line : Set :=
  | NewConnection (vehicle_id : Z) (active : nat)
  | VehicleDisconnected (vehicle_id : Z)
  | ErrorBroadcasting (e : exn)
  | ErrorInLoop (e : exn).

(** What leaves the process: a text frame handed to a socket, a
    [send_text] call that raised, a printed line. *)
Inductive Event : Set :=
  | TextSent (ws : WebSocket) (message : string)
  | TextFailed (ws : WebSocket) (message : string) (e : exn)
  | Printed (l : Line).

(** The connection states of the channel handler: [CONNECTING] before
    the handshake, [OPEN] while the coroutine waits in its receive
    loop, [CLOSED] once it has returned. *)
Inductive Status : Set := CONNECTING | OPEN | CLOSED.

#[global] Instance exn_eq_dec : EqDecision exn.
Proof. solve_decision. Defined.
#[global] Instance Line_eq_dec : EqDecision Line.
Proof. solve_decision. Defined.
#[global] Instance Event_eq_dec : EqDecision Event.
Proof. solve_decision. Defined.
#[global] Instance Status_eq_dec : EqDecision Status.
Proof. solve_decision. Defined.

(** [list.remove(x)]: drops the first occurrence of [x]; raises
    [ValueError] when there is none. *)
Fixpoint list_remove (x : positive) (l : list positive) : Result (list positive) :=
  match l with
  | [] => Raised ValueError
  | y :: l' =>
      if bool_decide (x = y) then Returned l'
      else match list_remove x l' with
           | Returned r => Returned (y :: r)
           | Raised e => Raised e
           end
  end.

Section Tracking.

(** Python's [json] module: [json_loads] answers [None] where
    [json.loads] raises [JSONDecodeError]. *)
Context {Json : Type}.
Context (json_loads : string → option Json).
Context (json_dumps : Json → string).

(** The state of the module: [manager.active_connections], the global
    [vehicle_locations], and everything emitted so far, oldest first. *)
Record World : Type := mkWorld {
  active_connections : gmap Z (list positive);
  vehicle_locations : gmap Z Json;
  emitted : list Event
}.

Definition M (A : Type) : Type := World → Result A * World.

Definition ret {A} (a : A) : M A := λ w, (Returned a, w).
Definition raise {A} (e : exn) : M A := λ w, (Raised e, w).
Definition bind {A B} (m : M A) (k : A → M B) : M B :=
  λ w, match m w with
       | (Returned a, w') => k a w'
       | (Raised e, w') => (Raised e, w')
       end.
(** [try: body except Exception as e: handler e]. *)
Definition try_except {A} (body : M A) (handler : exn → M A) : M A :=
  λ w, match body w with
       | (Returned a, w') => (Returned a, w')
       | (Raised e, w') => handler e w'
       end.

#[local] Notation "x <~ m ; k" := (bind m (λ x, k))
  (at level 100, m at next level, right associativity, only parsing).
#[local] Notation "m ;;; k" := (bind m (λ _, k))
  (at level 100, right associativity, only parsing).

(** ** Primitive effects *)

Definition emit (ev : Event) : M unit :=
  λ w, (Returned tt,
        mkWorld (active_connections w) (vehicle_locations w) (emitted w ++ [ev])).
Definition print (l : Line) : M unit := emit (Printed l).

(** [vehicle_id in self.active_connections] *)
Definition contains (vehicle_id : Z) : M bool :=
  λ w, (Returned (bool_decide (is_Some (active_connections w !! vehicle_id))), w).
(** [self.active_connections[vehicle_id]] *)
Definition getitem (vehicle_id : Z) : M (list positive) :=
  λ w, match active_connections w !! vehicle_id with
       | Some l => (Returned l, w)
       | None => (Raised KeyError, w)
       end.
(** [self.active_connections[vehicle_id] = l]; also stands for the
    mutation in place of the list stored under [vehicle_id]. *)
Definition setitem (vehicle_id : Z) (l : list positive) : M unit :=
  λ w, (Returned tt,
        mkWorld (<[vehicle_id := l]> (active_connections w))
                (vehicle_locations w) (emitted w)).
(** [del self.active_connections[vehicle_id]] *)
Definition delitem (vehicle_id : Z) : M unit :=
  λ w, match active_connections w !! vehicle_id with
       | Some _ => (Returned tt,
                    mkWorld (delete vehicle_id (active_connections w))
                            (vehicle_locations w) (emitted w))
       | None => (Raised KeyError, w)
       end.
(** [vehicle_locations[vehicle_id] = location] *)
Definition set_location (vehicle_id : Z) (location : Json) : M unit :=
  λ w, (Returned tt,
        mkWorld (active_connections w)
                (<[vehicle_id := location]> (vehicle_locations w)) (emitted w)).
Definition lift {A} (r : Result A) : M A := λ w, (r, w).

(** [await websocket.accept()]: [handshake] is what the call does. *)
Definition accept (handshake : Result unit) (ws : WebSocket) : M unit :=
  lift handshake.
(** [await connection.send_text(message)]: [send_raises ws] is the
    exception the call raises, if any. *)
Definition send_text (send_raises : positive → option exn)
    (ws : WebSocket) (message : string) : M unit :=
  match send_raises ws with
  | None => emit (TextSent ws message)
  | Some e => emit (TextFailed ws message e);;; raise e
  end.
(** [await websocket.receive_text()]: [incoming] is what the call does. *)
Definition receive_text (incoming : Result string) (ws : WebSocket) : M string :=
  lift incoming.
(** [json.loads(data)] *)
Definition loads (data : string) : M Json :=
  match json_loads data with
  | Some location => ret location
  | None => raise JSONDecodeError
  end.

(** ** ConnectionManager *)

Definition connect (handshake : Result unit) (ws : WebSocket) (vehicle_id : Z) : M unit :=
  accept handshake ws;;;
  present <~ contains vehicle_id;
  (if present then ret tt else setitem vehicle_id []);;;
  l <~ getitem vehicle_id;
  setitem vehicle_id (l ++ [ws]);;;
  l' <~ getitem vehicle_id;
  print (NewConnection vehicle_id (length l')).

Definition disconnect (ws : WebSocket) (vehicle_id : Z) : M unit :=
  present <~ contains vehicle_id;
  (if present then
     l <~ getitem vehicle_id;
     (if bool_decide (ws ∈ l) then
        l' <~ lift (list_remove ws l);
        setitem vehicle_id l'
      else ret tt);;;
     l'' <~ getitem vehicle_id;
     (if bool_decide (l'' = []) then delitem vehicle_id else ret tt)
   else ret tt);;;
  print (VehicleDisconnected vehicle_id).

(** The [for connection in ...] loop of [broadcast], when no other
    coroutine changes the list between two sends; [wake] has the loop
    one [await] at a time. *)
Fixpoint send_to_each (send_raises : positive → option exn)
    (message : string) (l : list positive) : M unit :=
  match l with
  | [] => ret tt
  | connection :: rest =>
      try_except (send_text send_raises connection message)
                 (λ e, print (ErrorBroadcasting e));;;
      send_to_each send_raises message rest
  end.

Definition broadcast (send_raises : positive → option exn)
    (vehicle_id : Z) (message : string) : M unit :=
  present <~ contains vehicle_id;
  if present then
    l <~ getitem vehicle_id;
    send_to_each send_raises message l
  else ret tt.

(** ** The endpoint [websocket_location] *)

(** The body of [while True], inside the [try]. *)
Definition loop_body (incoming : Result string)
    (send_raises : positive → option exn)
    (ws : WebSocket) (vehicle_id : Z) : M unit :=
  data <~ receive_text incoming ws;
  location <~ loads data;
  set_location vehicle_id location;;;
  broadcast send_raises vehicle_id (json_dumps location).

(** The two [except] clauses. *)
Definition except_clauses (ws : WebSocket) (vehicle_id : Z) (e : exn) : M unit :=
  match e with
  | WebSocketDisconnect => disconnect ws vehicle_id
  | _ => print (ErrorInLoop e);;; disconnect ws vehicle_id
  end.

(** One turn of the receive loop. The [try] encloses the whole
    [while True]: an exception raised in any turn leaves the loop for
    good, runs an [except] clause and ends the coroutine. So a turn
    that returns leaves the connection [OPEN], and a turn that raises
    ends in [CLOSED]. *)
Definition turn (incoming : Result string) (send_raises : positive → option exn)
    (ws : WebSocket) (vehicle_id : Z) : M Status :=
  try_except
    (loop_body incoming send_raises ws vehicle_id;;; ret OPEN)
    (λ e, except_clauses ws vehicle_id e;;; ret CLOSED).

(** The loop over the frames that arrive; when none is left the
    coroutine waits in [receive_text], [OPEN]. *)
Fixpoint receive_loop (script : list (Result string * (positive → option exn)))
    (ws : WebSocket) (vehicle_id : Z) : M Status :=
  match script with
  | [] => ret OPEN
  | (incoming, send_raises) :: rest =>
      s <~ turn incoming send_raises ws vehicle_id;
      match s with
      | OPEN => receive_loop rest ws vehicle_id
      | _ => ret s
      end
  end.

(** [connect] is outside the [try]: an exception of [accept] leaves
    the coroutine at once. *)
Definition websocket_location (handshake : Result unit)
    (script : list (Result string * (positive → option exn)))
    (ws : WebSocket) (vehicle_id : Z) : M Status :=
  connect handshake ws vehicle_id;;;
  receive_loop script ws vehicle_id.

(** ** Several connections at once

    The server runs one [websocket_location] coroutine per websocket.
    Here a coroutine that has received a frame finishes its turn
    before another one runs. [sessions] records, for every websocket
    the endpoint was called with, its vehicle and where its coroutine
    stands. *)
Record Server : Type := mkServer {
  world : World;
  sessions : gmap positive (Z * Status)
}.

Inductive Input : Type :=
  | Upgrade (ws : WebSocket) (vehicle_id : Z) (handshake : Result unit)
  | Frame (ws : WebSocket) (incoming : Result string)
          (send_raises : positive → option exn).

Definition status_of {A} (r : Result A) (dflt : A → Status) : Status :=
  match r with
  | Returned a => dflt a
  | Raised _ => CLOSED
  end.

(** [Upgrade]: the framework builds a new websocket object and calls
    the endpoint with it, which runs up to its first [receive_text];
    an object already seen is not handed over again. [Frame]: the
    coroutine of [ws], if it waits in the loop, takes one turn. *)
Definition step (s : Server) (i : Input) : Server :=
  match i with
  | Upgrade ws vehicle_id handshake =>
      match sessions s !! ws with
      | Some _ => s
      | None =>
          let '(r, w) := connect handshake ws vehicle_id (world s) in
          mkServer w (<[ws := (vehicle_id, status_of r (λ _, OPEN))]> (sessions s))
      end
  | Frame ws incoming send_raises =>
      match sessions s !! ws with
      | Some (vehicle_id, OPEN) =>
          let '(r, w) := turn incoming send_raises ws vehicle_id (world s) in
          mkServer w (<[ws := (vehicle_id, status_of r id)]> (sessions s))
      | _ => s
      end
  end.

Definition run (s : Server) (inputs : list Input) : Server :=
  foldl step s inputs.

Definition empty_world : World := mkWorld ∅ ∅ [].
Definition boot : Server := mkServer empty_world ∅.

(** The calls made on the manager alone. *)
Inductive Op : Type :=
  | OpConnect (ws : WebSocket) (vehicle_id : Z) (handshake : Result unit)
  | OpDisconnect (ws : WebSocket) (vehicle_id : Z).

Definition apply_op (w : World) (o : Op) : World :=
  match o with
  | OpConnect ws vehicle_id handshake => (connect handshake ws vehicle_id w).2
  | OpDisconnect ws vehicle_id => (disconnect ws vehicle_id w).2
  end.

Definition apply_ops (w : World) (ops : list Op) : World :=
  foldl apply_op w ops.

(** The connections listed under a vehicle; none when the key is absent. *)
Definition connections (w : World) (vehicle_id : Z) : list positive :=
  default [] (active_connections w !! vehicle_id).

(** The events emitted between two worlds. *)
Definition emitted_since (w w' : World) : list Event :=
  drop (length (emitted w)) (emitted w').

(** The frames a websocket was handed. *)
Definition received_by (ws : WebSocket) (evs : list Event) : list string :=
  omap (λ ev, match ev with
              | TextSent c message => if bool_decide (c = ws) then Some message else None
              | _ => None
              end) evs.

End Tracking.

(** ** A small [json] to run the model on

    The development is generic in [json_loads] and [json_dumps]. To run
    it on concrete frames, [Flat] implements the fragment the tracking
    pages exchange: one object whose members are numbers, such as the
    [{lat, lng}] the sender page emits. Number literals are kept as
    written (Python prints [13.08] back as [13.08]) and members are
    printed with Python's default separators. Text outside the fragment
    is rejected; for text that is not JSON at all this is what
    [json.loads] does. *)
Module Flat.

Definition value : Type := list (string * string).

Definition dquote : ascii := ascii_of_nat 34.

Definition is_digit (c : ascii) : bool :=
  (48 <=? nat_of_ascii c)%nat && (nat_of_ascii c <=? 57)%nat.

Definition is_space (c : ascii) : bool :=
  bool_decide (nat_of_ascii c ∈ [32; 9; 10; 13]%nat).

Fixpoint skip_space (l : list ascii) : list ascii :=
  match l with
  | c :: l' => if is_space c then skip_space l' else l
  | [] => []
  end.

Fixpoint span (p : ascii → bool) (l : list ascii) : list ascii * list ascii :=
  match l with
  | c :: l' => if p c then let '(a, b) := span p l' in (c :: a, b) else ([], l)
  | [] => ([], [])
  end.

(** A string without escapes. *)
Definition read_key (l : list ascii) : option (string * list ascii) :=
  match l with
  | q :: l' =>
      if bool_decide (q = dquote) then
        let '(k, rest) :=
          span (λ c, negb (bool_decide (c = dquote)) &&
                     negb (bool_decide (c = "\"%char)) &&
                     (32 <=? nat_of_ascii c)%nat) l' in
        match rest with
        | q' :: rest' =>
            if bool_decide (q' = dquote)
            then Some (String.string_of_list_ascii k, rest') else None
        | [] => None
        end
      else None
  | [] => None
  end.

Definition read_digits (l : list ascii) : option (list ascii * list ascii) :=
  match span is_digit l with
  | ([], _) => None
  | (d :: ds, rest) =>
      if bool_decide (d = "0"%char) && negb (bool_decide (ds = []))
      then None else Some (d :: ds, rest)
  end.

(** [-?int(.digits)?], no exponent. *)
Definition read_number (l : list ascii) : option (string * list ascii) :=
  let '(sign, l1) :=
    match l with
    | c :: l' => if bool_decide (c = "-"%char) then ([c], l') else ([], l)
    | [] => ([], l)
    end in
  match read_digits l1 with
  | None => None
  | Some (int, l2) =>
      match l2 with
      | c :: l3 =>
          if bool_decide (c = "."%char) then
            match span is_digit l3 with
            | ([], _) => None
            | (frac, l4) =>
                Some (String.string_of_list_ascii (sign ++ int ++ c :: frac), l4)
            end
          else Some (String.string_of_list_ascii (sign ++ int), l2)
      | [] => Some (String.string_of_list_ascii (sign ++ int), l2)
      end
  end.

(** [d[k] = v] on an insertion-ordered dict. *)
Fixpoint dict_set (k v : string) (d : value) : value :=
  match d with
  | [] => [(k, v)]
  | (k', v') :: d' =>
      if bool_decide (k = k') then (k, v) :: d' else (k', v') :: dict_set k v d'
  end.

Definition read_member (l : list ascii) : option (string * string * list ascii) :=
  match read_key l with
  | None => None
  | Some (k, l1) =>
      match skip_space l1 with
      | c :: l2 =>
          if bool_decide (c = ":"%char) then
            match read_number (skip_space l2) with
            | Some (v, l3) => Some (k, v, l3)
            | None => None
            end
          else None
      | [] => None
      end
  end.

(** The members after the first, up to the closing brace. *)
Fixpoint read_more (fuel : nat) (d : value) (l : list ascii) : option (value * list ascii) :=
  match fuel with
  | O => None
  | S fuel' =>
      match skip_space l with
      | c :: l1 =>
          if bool_decide (c = "}"%char) then Some (d, l1)
          else if bool_decide (c = ","%char) then
            match read_member (skip_space l1) with
            | Some (k, v, l2) => read_more fuel' (dict_set k v d) l2
            | None => None
            end
          else None
      | [] => None
      end
  end.

Definition read_object (l : list ascii) : option (value * list ascii) :=
  match skip_space l with
  | c :: l1 =>
      if bool_decide (c = "{"%char) then
        match skip_space l1 with
        | c' :: l2 =>
            if bool_decide (c' = "}"%char) then Some ([], l2)
            else match read_member (c' :: l2) with
                 | Some (k, v, l3) => read_more (length l3) [(k, v)] l3
                 | None => None
                 end
        | [] => None
        end
      else None
  | [] => None
  end.

Definition loads (s : string) : option value :=
  match read_object (String.list_ascii_of_string s) with
  | Some (d, rest) => if bool_decide (skip_space rest = []) then Some d else None
  | None => None
  end.

Definition quoted (k : string) : string :=
  String.String dquote (k +:+ String.String dquote String.EmptyString).

Fixpoint dump_members (d : value) : string :=
  match d with
  | [] => String.EmptyString
  | [(k, v)] => quoted k +:+ ": " +:+ v
  | (k, v) :: d' => quoted k +:+ ": " +:+ v +:+ ", " +:+ dump_members d'
  end.

Definition dumps (d : value) : string := "{" +:+ dump_members d +:+ "}".

(** The frame of the sender page, [{"lat":13.08,"lng":80.27}]. *)
Definition position_text : string :=
  "{" +:+ quoted "lat" +:+ ":13.08," +:+ quoted "lng" +:+ ":80.27}".
Definition position : value := [("lat", "13.08"); ("lng", "80.27")].

End Flat.

(** ** What the operations amount to, as plain functions

    These are not part of the program: they say, in closed form, what
    the theorems below prove the monadic code computes. *)

(** The list after [if x in l: l.remove(x)]. *)
Definition discard (x : positive) (l : list positive) : list positive :=
  match list_remove x l with
  | Returned l' => l'
  | Raised _ => l
  end.

(** The registry after [disconnect]. *)
Definition registry_without (ws : WebSocket) (vehicle_id : Z)
    (ac : gmap Z (list positive)) : gmap Z (list positive) :=
  match ac !! vehicle_id with
  | None => ac
  | Some l =>
      if bool_decide (discard ws l = []) then delete vehicle_id ac
      else <[vehicle_id := discard ws l]> ac
  end.

(** What one pass of the [broadcast] loop emits for one connection. *)
Definition send_trace (send_raises : positive → option exn) (message : string)
    (connection : positive) : list Event :=
  match send_raises connection with
  | None => [TextSent connection message]
  | Some e => [TextFailed connection message e; Printed (ErrorBroadcasting e)]
  end.

Definition broadcast_trace (send_raises : positive → option exn) (message : string)
    (l : list positive) : list Event :=
  flat_map (send_trace send_raises message) l.

(** No send raises. *)
Definition all_alive : positive → option exn := λ _, None.
(** Every send raises. *)
Definition all_dead : positive → option exn := λ _, Some RuntimeError.

(** The connections a trace handed a frame to, in order. *)
Definition recipients (evs : list Event) : list positive :=
  omap (λ ev, match ev with TextSent c _ => Some c | _ => None end) evs.

(** The connections a trace shows a [send_text] call for, in order,
    whether the call returned or raised. *)
Definition targets (evs : list Event) : list positive :=
  omap (λ ev, match ev with
              | TextSent c _ | TextFailed c _ _ => Some c
              | Printed _ => None
              end) evs.

(** No key holds an empty list. *)
Definition no_empty_list (ac : gmap Z (list positive)) : Prop :=
  ∀ v, ac !! v ≠ Some [].

(** How many times a connection is listed. *)
Definition occurrences (ws : WebSocket) (l : list positive) : nat :=
  length (filter (λ c, c = ws) l).

(** What the [except] clauses print before [disconnect] runs. *)
Definition loop_error_lines (e : exn) : list Event :=
  match e with
  | WebSocketDisconnect => []
  | _ => [Printed (ErrorInLoop e)]
  end.

(** Every list of the registry is non-empty and free of duplicates. *)
Definition tidy (ac : gmap Z (list positive)) : Prop :=
  ∀ v l, ac !! v = Some l → l ≠ [] ∧ NoDup l.

Section Invariants.

Context {Json : Type}.
Context (json_loads : string → option Json).

(** What ends the receive loop: [receive_text] raising (the peer
    closed, a read error) or a frame [json.loads] rejects. *)
Definition ends_loop (incoming : Result string) : Prop :=
  match incoming with
  | Raised _ => True
  | Returned data => json_loads data = None
  end.

(** The registry lists exactly the websockets whose coroutine waits
    in the receive loop, each once and under its own vehicle. *)
Definition consistent (s : Server (Json:=Json)) : Prop :=
  tidy (active_connections (world s)) ∧
  ∀ v ws, ws ∈ connections (world s) v ↔ sessions s !! ws = Some (v, OPEN).

End Invariants.

(** The frames of one websocket, as inputs of the server. *)
Definition frames (ws : WebSocket)
    (script : list (Result string * (positive → option exn))) : list Input :=
  map (λ turn_input, Frame ws turn_input.1 turn_input.2) script.

(** ** Worlds to run the model on *)
Module Demo.

Definition alice : positive := 1.
Definition bob : positive := 2.
Definition carol : positive := 3.

Definition accepted : Result unit := Returned tt.

(** [alice] and [bob] under vehicle 1, [carol] under vehicle 2. *)
Definition connects : list Op :=
  [OpConnect alice 1 accepted; OpConnect bob 1 accepted; OpConnect carol 2 accepted].
Definition viewers : World (Json:=Flat.value) := apply_ops empty_world connects.

(** The same three connections, opened through the endpoint. *)
Definition upgrades : list (Input) :=
  [Upgrade alice 1 accepted; Upgrade bob 1 accepted; Upgrade carol 2 accepted].
Definition server : Server (Json:=Flat.value) :=
  run Flat.loads Flat.dumps boot upgrades.

(** [alice] sends text that is not JSON, then a position. *)
Definition after_malformed : Server (Json:=Flat.value) :=
  step Flat.loads Flat.dumps server (Frame alice (Returned "not-json") all_alive).
Definition after_retry : Server (Json:=Flat.value) :=
  step Flat.loads Flat.dumps after_malformed
       (Frame alice (Returned Flat.position_text) all_alive).

End Demo.

(** ** Whole sessions *)

Section Sessions.

Context {Json : Type}.
Context (json_loads : string → option Json).
Context (json_dumps : Json → string).

(** The strings the frames of a script are broadcast as, in order:
    [json.dumps(json.loads(data))] for every frame that parses. *)
Definition payloads (script : list (Result string * (positive → option exn)))
    : list string :=
  omap (λ turn_input, match turn_input.1 with
                      | Returned data => json_dumps <$> json_loads data
                      | Raised _ => None
                      end) script.

(** No input of the script ends the receive loop. *)
Definition all_parse (script : list (Result string * (positive → option exn))) : Prop :=
  Forall (λ turn_input, ¬ ends_loop json_loads turn_input.1) script.

(** The sends to [c] raise in no turn of the script. *)
Definition alive_throughout (c : positive)
    (script : list (Result string * (positive → option exn))) : Prop :=
  Forall (λ turn_input, turn_input.2 c = None) script.

End Sessions.

(** * The vehicle management API ([vehicle.py])

    The request handlers of the API, with what they get from outside
    made explicit.
    - The database is a record of its tables. [Query.get] is a lookup by
      primary key; a row handed to [db.add] and committed is appended to
      its table as the handler built it (the [id] and [created_at] the
      database fills in, and the precision of a [Float] column, are not
      part of the rows modelled).
    - String comparison in SQL depends on the column's collation, so it
      is a parameter, [same_name].
    - [passlib] and [jose] are parameters: [pwd_hash], [pwd_verify],
      [jwt_encode], [jwt_decode]. A token is valid or not at a given
      time, so [jwt_decode] takes the time of the call, in seconds.
    - The database enforces what the models declare: a value longer
      than its [String(n)] column makes the commit fail (MySQL's strict
      mode, its default), and so does a second row with the same
      [unique] user name. No column of an existing row is [NULL].
    - Python floats are binary64 floats.
    - Text is ASCII: [str.lower] and the length of a string are
      modelled on ASCII text. *)
Module Vehicle.

#[local] Open Scope Z_scope.
#[local] Set Warnings "-inexact-float".

Inductive failure : Type :=
  | HTTPException (status_code : Z) (detail : string)
  | KeyError (key : string)
  | IntegrityError
  | DataError.

Inductive outcome (A : Type) : Type :=
  | Ok (a : A)
  | Fail (f : failure).
Arguments Ok {A} a.
Arguments Fail {A} f.

(** The values of a token's payload: strings, and numbers such as the
    expiry time. *)
Inductive claim : Type :=
  | Str (s : string)
  | Num (n : Z).

#[global] Instance claim_eq_dec : EqDecision claim.
Proof. solve_decision. Defined.

(** ** Location pricing *)

Definition lower_char (c : ascii) : ascii :=
  if (65 <=? nat_of_ascii c)%nat && (nat_of_ascii c <=? 90)%nat
  then ascii_of_nat (nat_of_ascii c + 32)%nat
  else c.

(** [str.lower()] *)
Fixpoint lower (s : string) : string :=
  match s with
  | String.EmptyString => String.EmptyString
  | String.String c s' => String.String (lower_char c) (lower s')
  end.

Definition LOCATION_MULTIPLIER : gmap string float :=
  list_to_map [("chennai", 1.0%float); ("bangalore", 1.2%float);
               ("hyderabad", 1.1%float); ("remote", 1.5%float)].

Definition get_location_multiplier (location : string) : float :=
  default 1.0%float (LOCATION_MULTIPLIER !! lower location).

(** ** Distance *)

Definition GOOGLE_MAPS_API_KEY : string := "YOUR_GOOGLE_MAPS_API_KEY".

(** [gmaps] is the maps client, [None] when it could not be built. Its
    answer to a [distance_matrix] request is the distance in meters
    read from the response, or [None] when the request or the reading
    raises. [true_divide] is Python's [/] on integers. *)
Definition calculate_distance_km (true_divide : Z → Z → float)
    (gmaps : option (string → string → option Z)) (pickup drop : string) : float :=
  if match gmaps with None => true | Some _ => false end
     || String.eqb GOOGLE_MAPS_API_KEY "YOUR_GOOGLE_MAPS_API_KEY"
  then 15.0%float
  else match gmaps with
       | Some distance_matrix =>
           match distance_matrix pickup drop with
           | Some meters => true_divide meters 1000
           | None => 15.0%float
           end
       | None => 15.0%float
       end.

(** ** Tables and schemas *)

Record User : Type := mkUser {
  username : string;
  password : string;
  role : string
}.

Record Driver : Type := mkDriver {
  name : string;
  phone : string;
  salary_per_km : float;
  driver_location : string
}.

Record VehicleRow : Type := mkVehicle {
  vehicle_number : string;
  type : string;
  rate_per_km : float;
  vehicle_location : string
}.

Record Trip : Type := mkTrip {
  trip_driver_id : Z;
  trip_vehicle_id : Z;
  trip_pickup_location : string;
  trip_drop_location : string;
  distance : float;
  total_amount : float
}.

Record Db : Type := mkDb {
  users : list User;
  drivers : gmap Z Driver;
  vehicles : gmap Z VehicleRow;
  trips : list Trip
}.

Record RegisterSchema : Type := mkRegister {
  register_username : string;
  register_password : string;
  register_role : string
}.

Record TripCreate : Type := mkTripCreate {
  driver_id : Z;
  vehicle_id : Z;
  pickup_location : string;
  drop_location : string
}.

(** A value fits a [String(n)] column. *)
Definition fits (n : nat) (value : string) : bool :=
  (String.length value <=? n)%nat.

(** ** Trips *)

Definition create_trip (true_divide : Z → Z → float)
    (gmaps : option (string → string → option Z))
    (data : TripCreate) (db : Db) : outcome Trip * Db :=
  match drivers db !! driver_id data, vehicles db !! vehicle_id data with
  | Some driver, Some vehicle =>
      let distance :=
        calculate_distance_km true_divide gmaps
          (pickup_location data) (drop_location data) in
      let multiplier := get_location_multiplier (pickup_location data) in
      let total_amount :=
        PrimFloat.mul (PrimFloat.mul distance (rate_per_km vehicle)) multiplier in
      let trip := mkTrip (driver_id data) (vehicle_id data)
                         (pickup_location data) (drop_location data)
                         distance total_amount in
      if fits 200 (pickup_location data) && fits 200 (drop_location data)
      then (Ok trip, mkDb (users db) (drivers db) (vehicles db) (trips db ++ [trip]))
      else (Fail DataError, db)
  | _, _ => (Fail (HTTPException 404 "Driver or Vehicle not found"), db)
  end.

(** ** Roles *)

(** The [checker] that [require_role roles] returns; [user] is the
    payload of the caller's token. *)
Definition require_role (roles : list string) (user : gmap string claim)
    : outcome (gmap string claim) :=
  match user !! "role" with
  | None => Fail (KeyError "role")
  | Some r =>
      if bool_decide (r ∈ (Str <$> roles)) then Ok user
      else Fail (HTTPException 403 "Access denied")
  end.

(** The role lists of the protected routes, as their decorators give
    them: the same for [/drivers], [/vehicles] and [/trips]. *)
Inductive method : Set := GET | POST.

Definition route_roles (m : method) : list string :=
  match m with
  | POST => ["admin"; "manager"]
  | GET => ["admin"; "manager"; "viewer"]
  end.

(** ** Accounts and tokens *)

Definition ACCESS_TOKEN_EXPIRE_MINUTES : Z := 60.

Section Auth.

Context {Jwt : Type}.
Context (same_name : string → string → bool).
Context (pwd_hash : string → string).
Context (pwd_verify : string → string → bool).
Context (jwt_encode : gmap string claim → Jwt).
Context (jwt_decode : Z → Jwt → option (gmap string claim)).

Definition hash_password (password : string) : string := pwd_hash password.

Definition verify_password (plain hashed : string) : bool := pwd_verify plain hashed.

(** [now] is [datetime.utcnow()], in seconds. *)
Definition create_access_token (now : Z) (data : gmap string claim) : Jwt :=
  jwt_encode (<["exp" := Num (now + ACCESS_TOKEN_EXPIRE_MINUTES * 60)]> data).

Definition get_current_user (now : Z) (token : Jwt) : outcome (gmap string claim) :=
  match jwt_decode now token with
  | Some user => Ok user
  | None => Fail (HTTPException 401 "Invalid token")
  end.

(** What a protected route runs before its handler:
    [Depends(require_role(roles))] over [Depends(get_current_user)]. *)
Definition authorize (roles : list string) (now : Z) (token : Jwt)
    : outcome (gmap string claim) :=
  match get_current_user now token with
  | Ok user => require_role roles user
  | Fail f => Fail f
  end.

(** The commit fails when a column is too short for its value, and,
    [username] being [unique], when a row with the same name is there. *)
Definition register (data : RegisterSchema) (db : Db) : outcome string * Db :=
  let user := mkUser (register_username data)
                     (hash_password (register_password data))
                     (register_role data) in
  if negb (fits 50 (username user) && fits 200 (password user) && fits 20 (role user))
  then (Fail DataError, db)
  else if existsb (λ u, same_name (username u) (register_username data)) (users db)
  then (Fail IntegrityError, db)
  else (Ok "User registered successfully",
        mkDb (users db ++ [user]) (drivers db) (vehicles db) (trips db)).

(** [form_username] and [form_password] are the fields of the login
    form; the answer is the [access_token] (the [token_type] is always
    [bearer]). *)
Definition login (now : Z) (form_username form_password : string) (db : Db)
    : outcome Jwt :=
  match List.find (λ u, same_name (username u) form_username) (users db) with
  | None => Fail (HTTPException 401 "Invalid credentials")
  | Some user =>
      if verify_password form_password (password user) then
        Ok (create_access_token now
              (<["sub" := Str (username user)]> {["role" := Str (role user)]}))
      else Fail (HTTPException 401 "Invalid credentials")
  end.

End Auth.

End Vehicle.

(** ** A database and libraries to run the API on *)
Module VehicleDemo.

#[local] Set Warnings "-inexact-float".

(** Stand-ins for the collation, [passlib] and [jose]: names compare
    byte for byte, a hash is the password behind a mark, and a token is
    its own payload, valid until its [exp]. *)
Definition same_name : string → string → bool := String.eqb.
Definition pwd_hash (password : string) : string := "#" +:+ password.
Definition pwd_verify (plain hashed : string) : bool :=
  String.eqb (pwd_hash plain) hashed.
Definition jwt_encode (payload : gmap string Vehicle.claim)
    : gmap string Vehicle.claim := payload.
Definition jwt_decode (now : Z) (token : gmap string Vehicle.claim)
    : option (gmap string Vehicle.claim) :=
  match token !! "exp" with
  | Some (Vehicle.Num exp) => if bool_decide (now ≤ exp)%Z then Some token else None
  | _ => None
  end.

Definition ravi : Vehicle.Driver :=
  Vehicle.mkDriver "Ravi" "9000000000" 4.0%float "chennai".
Definition van : Vehicle.VehicleRow :=
  Vehicle.mkVehicle "TN01AB1234" "van" 2.5%float "chennai".

Definition db : Vehicle.Db :=
  Vehicle.mkDb [] {[ 1%Z := ravi ]} {[ 7%Z := van ]} [].

Definition newcomer : Vehicle.RegisterSchema :=
  Vehicle.mkRegister "mallory" "secret" "admin".

Definition ride : Vehicle.TripCreate :=
  Vehicle.mkTripCreate 1 7 "Bangalore" "Mysore".

(** A token payload with the role [viewer]. *)
Definition viewer_token : gmap string Vehicle.claim :=
  <["sub" := Vehicle.Str "vera"]> {["role" := Vehicle.Str "viewer"]}.

(** A maps client that always answers 42 km. *)
Definition maps_client : option (string → string → option Z) :=
  Some (λ _ _, Some 42000%Z).

End VehicleDemo.

(** ** A session to run the model on *)
Module Session.

(** A websocket that is not connected yet. *)
Definition dave : positive := 4.

(** A second position, [{"lat":13.09,"lng":80.28}]. *)
Definition later_text : string :=
  "{" +:+ Flat.quoted "lat" +:+ ":13.09," +:+ Flat.quoted "lng" +:+ ":80.28}".

(** Two positions, no send failing. *)
Definition two_positions : list (Result string * (positive → option exn)) :=
  [(Returned Flat.position_text, all_alive); (Returned later_text, all_alive)].

(** The server once [alice] has sent a position. *)
Definition after_position : Server (Json:=Flat.value) :=
  step Flat.loads Flat.dumps Demo.server
       (Frame Demo.alice (Returned Flat.position_text) all_alive).

End Session.

(** * The coroutines, [await] by [await]

    [broadcast] above is the broadcast that nothing interrupts. In the
    source the loop
    [for connection in self.active_connections[vehicle_id]] walks the
    list object stored in the registry, an index at a time, and hands
    control back at every [await connection.send_text(message)]:
    while one coroutine waits for a send, others run [connect] and
    [disconnect] on that same list.

    Here each coroutine is at one of its [await]s. A coroutine in its
    broadcast keeps the message, the index its list iterator stands at
    and the connection whose send it waits for; when the send is over
    the iterator reads the list as it is then: the element at its
    index, or the end of the loop when the list is shorter. The list
    object it walks is the one under the vehicle's key for as long as
    the loop runs, because a key is deleted only once its list is empty
    and the sending websocket itself is in that list
    ([sending_keeps_its_key] below). *)

Inductive Phase : Type :=
  | Receiving
  | Sending (message : string) (index : nat) (connection : positive)
  | Finished.

#[global] Instance Phase_eq_dec : EqDecision Phase.
Proof. solve_decision. Defined.

Section Interleaving.

Context {Json : Type}.
Context (json_loads : string → option Json).
Context (json_dumps : Json → string).

(** [coroutines] gives, for every websocket the endpoint was called
    with, its vehicle and the [await] its coroutine stands at. *)
Record Conc : Type := mkConc {
  cworld : World (Json:=Json);
  coroutines : gmap positive (Z * Phase)
}.

(** What wakes a coroutine up: the handshake of a new websocket is
    over, [receive_text] returns or raises, the pending [send_text]
    returns or raises. *)
Inductive Wake : Type :=
  | Handshake (ws : WebSocket) (vehicle_id : Z) (handshake : Result unit)
  | Received (ws : WebSocket) (incoming : Result string)
  | SendDone (ws : WebSocket) (raised : option exn).

(** The loop body up to the call of [broadcast]; it returns the
    argument of the call, [json.dumps(location)]. *)
Definition before_broadcast (incoming : Result string)
    (ws : WebSocket) (vehicle_id : Z) : M string :=
  bind (receive_text incoming ws) (λ data,
  bind (loads json_loads data) (λ location,
  bind (set_location vehicle_id location) (λ _,
  ret (json_dumps location)))).

(** [next] on the list iterator, then the [await] of the send if there
    is an element, the end of the broadcast (and so the next
    [receive_text]) if there is none. *)
Definition resume_loop (vehicle_id : Z) (message : string) (index : nat)
    (w : World (Json:=Json)) : Phase :=
  match connections w vehicle_id !! index with
  | Some connection => Sending message (S index) connection
  | None => Receiving
  end.

(** The woken coroutine runs up to its next [await]. *)
Definition wake (s : Conc) (i : Wake) : Conc :=
  match i with
  | Handshake ws vehicle_id handshake =>
      match coroutines s !! ws with
      | Some _ => s
      | None =>
          let '(r, w) := connect handshake ws vehicle_id (cworld s) in
          mkConc w (<[ws := (vehicle_id,
                             match r with
                             | Returned _ => Receiving
                             | Raised _ => Finished
                             end)]> (coroutines s))
      end
  | Received ws incoming =>
      match coroutines s !! ws with
      | Some (vehicle_id, Receiving) =>
          match before_broadcast incoming ws vehicle_id (cworld s) with
          | (Returned message, w) =>
              mkConc w (<[ws := (vehicle_id,
                                 if bool_decide (is_Some (active_connections w !! vehicle_id))
                                 then resume_loop vehicle_id message 0 w
                                 else Receiving)]> (coroutines s))
          | (Raised e, w) =>
              mkConc (except_clauses ws vehicle_id e w).2
                     (<[ws := (vehicle_id, Finished)]> (coroutines s))
          end
      | _ => s
      end
  | SendDone ws raised =>
      match coroutines s !! ws with
      | Some (vehicle_id, Sending message index connection) =>
          let w := (try_except (send_text (λ _, raised) connection message)
                               (λ e, print (ErrorBroadcasting e)) (cworld s)).2 in
          mkConc w (<[ws := (vehicle_id, resume_loop vehicle_id message index w)]>
                      (coroutines s))
      | _ => s
      end
  end.

Definition schedule (s : Conc) (inputs : list Wake) : Conc :=
  foldl wake s inputs.

Definition start : Conc := mkConc empty_world ∅.

(** The vehicle the woken coroutine works for. *)
Definition works_for (s : Conc) (i : Wake) (vehicle_id : Z) : Prop :=
  match i with
  | Handshake _ v _ => v = vehicle_id
  | Received ws _ | SendDone ws _ =>
      ∃ phase, coroutines s !! ws = Some (vehicle_id, phase)
  end.

(** The registry is tidy and lists exactly the websockets whose
    coroutine has not returned, each under its own vehicle; a send
    that is awaited goes to a websocket of the sender's vehicle. *)
Definition orderly (s : Conc) : Prop :=
  tidy (active_connections (cworld s))
  ∧ (∀ v ws, ws ∈ connections (cworld s) v ↔
             ∃ phase, coroutines s !! ws = Some (v, phase) ∧ phase ≠ Finished)
  ∧ (∀ ws v message index c,
       coroutines s !! ws = Some (v, Sending message index c) →
       ∃ phase, coroutines s !! c = Some (v, phase)).

(** One frame and its broadcast with nothing else in between: the
    frame arrives, then the sends to the connections of [l] come back
    one after the other, [send_raises] telling which of them raise. *)
Definition uninterrupted (ws : WebSocket) (l : list positive)
    (incoming : Result string) (send_raises : positive → option exn) : list Wake :=
  Received ws incoming :: map (λ c, SendDone ws (send_raises c)) l.

(** A whole script of frames, each broadcast uninterrupted. *)
Definition solo (ws : WebSocket) (l : list positive)
    (script : list (Result string * (positive → option exn))) : list Wake :=
  flat_map (λ turn_input, uninterrupted ws l turn_input.1 turn_input.2) script.

End Interleaving.

(** ** Schedules in which a connection leaves during a broadcast *)
Module Race.

(** [alice], [bob] and [carol] watch vehicle 1. [alice] sends a
    position; her broadcast has sent to herself and waits for the send
    to [bob] when [bob]'s peer goes away: his coroutine ends and
    disconnects him, and then the send to him raises. *)
Definition dead_viewer : list Wake :=
  [Handshake Demo.alice 1 Demo.accepted;
   Handshake Demo.bob 1 Demo.accepted;
   Handshake Demo.carol 1 Demo.accepted;
   Received Demo.alice (Returned Flat.position_text);
   SendDone Demo.alice None;
   Received Demo.bob (Raised WebSocketDisconnect);
   SendDone Demo.alice (Some RuntimeError)].

(** [bob] connected first. [alice] sends a position; while her
    broadcast waits for the send to [bob], [bob] closes. No send
    raises. *)
Definition early_leaver : list Wake :=
  [Handshake Demo.bob 1 Demo.accepted;
   Handshake Demo.alice 1 Demo.accepted;
   Handshake Demo.carol 1 Demo.accepted;
   Received Demo.alice (Returned Flat.position_text);
   Received Demo.bob (Raised WebSocketDisconnect);
   SendDone Demo.alice None;
   SendDone Demo.alice None].

Definition after_dead_viewer : Conc (Json:=Flat.value) :=
  schedule Flat.loads Flat.dumps start dead_viewer.

Definition after_early_leaver : Conc (Json:=Flat.value) :=
  schedule Flat.loads Flat.dumps start early_leaver.

(** The three viewers connected, nothing sent yet. *)
Definition connected : Conc (Json:=Flat.value) :=
  schedule Flat.loads Flat.dumps start (take 3 dead_viewer).

Definition connected_bob_first : Conc (Json:=Flat.value) :=
  schedule Flat.loads Flat.dumps start (take 3 early_leaver).


(** [alice] and [bob] under vehicle 1, [carol] under vehicle 2, all
    waiting for a frame. *)
Definition handshakes : list Wake :=
  [Handshake Demo.alice 1 Demo.accepted;
   Handshake Demo.bob 1 Demo.accepted;
   Handshake Demo.carol 2 Demo.accepted].

Definition at_rest : Conc (Json:=Flat.value) :=
  schedule Flat.loads Flat.dumps start handshakes.

(** The same, [alice] in her broadcast, waiting for her first send. *)
Definition in_broadcast_wakes : list Wake :=
  handshakes ++ [Received Demo.alice (Returned Flat.position_text)].

Definition in_broadcast : Conc (Json:=Flat.value) :=
  schedule Flat.loads Flat.dumps start in_broadcast_wakes.

End Race.

(** ** Proof steps *)

(** Rewrites the dictionary lookups a run of the code goes through. *)
Ltac run_lookups :=
  repeat first
    [ rewrite lookup_insert_eq
    | match goal with H : ?m !! ?k = _ |- context [?m !! ?k] => rewrite H end
    | progress simpl ].

(** Decides a closed membership or equality goal by evaluation. *)
Ltac evaluate := apply (bool_decide_unpack _); vm_compute; exact I.

(** * Properties *)

Example flat_loads_position : Flat.loads Flat.position_text = Some Flat.position.
Proof. vm_compute. reflexivity. Qed.

Example flat_loads_not_json : Flat.loads "not-json" = None.
Proof. reflexivity. Qed.

Example flat_dumps_position :
  Flat.dumps Flat.position =
    "{" +:+ Flat.quoted "lat" +:+ ": 13.08, " +:+ Flat.quoted "lng" +:+ ": 80.27}".
Proof. reflexivity. Qed.

(** ** [list.remove] *)

Lemma list_remove_elem_of x l : x ∈ l → ∃ l', list_remove x l = Returned l'.
Proof.
  induction l as [|y l IH]; intros Hin.
  - by apply elem_of_nil in Hin.
  - simpl. case_bool_decide as Hxy; [eauto|].
    apply elem_of_cons in Hin as [?|Hin]; [done|].
    destruct (IH Hin) as [l' ->]. eauto.
Qed.

Lemma list_remove_not_elem_of x l : x ∉ l → list_remove x l = Raised ValueError.
Proof.
  induction l as [|y l IH]; intros Hin; [done|].
  apply not_elem_of_cons in Hin as [Hxy Hin]. simpl.
  rewrite bool_decide_eq_false_2 by done. by rewrite IH.
Qed.

Lemma discard_not_elem_of x l : x ∉ l → discard x l = l.
Proof. intros H. unfold discard. by rewrite list_remove_not_elem_of. Qed.

Lemma discard_cons x y l :
  discard x (y :: l) = if bool_decide (x = y) then l else y :: discard x l.
Proof.
  unfold discard. simpl. case_bool_decide; [done|].
  by destruct (list_remove x l).
Qed.

Lemma elem_of_discard_ne x y l : x ≠ y → y ∈ discard x l ↔ y ∈ l.
Proof.
  intros Hxy. induction l as [|z l IH]; [done|].
  rewrite discard_cons. case_bool_decide; subst.
  - rewrite elem_of_cons. split; [by right|]. by intros [?|?].
  - rewrite !elem_of_cons, IH. done.
Qed.

Lemma discard_sublist x l : discard x l `sublist_of` l.
Proof.
  induction l as [|z l IH]; [done|].
  rewrite discard_cons. case_bool_decide.
  - by apply sublist_cons.
  - by apply sublist_skip.
Qed.

Lemma NoDup_discard x l : NoDup l → NoDup (discard x l) ∧ x ∉ discard x l.
Proof.
  induction 1 as [|z l Hz Hl IH].
  - split; [constructor|]. apply not_elem_of_nil.
  - rewrite discard_cons. case_bool_decide; subst; [done|].
    destruct IH as [IH1 IH2]. split.
    + constructor; [|done]. intros Hin. apply Hz.
      eapply elem_of_sublist; [done|apply discard_sublist].
    + apply not_elem_of_cons. done.
Qed.

(** ** The registry after [disconnect] *)

Lemma lookup_registry_without_ne ws v v' (ac : gmap Z (list positive)) :
  v ≠ v' → registry_without ws v ac !! v' = ac !! v'.
Proof.
  intros Hne. unfold registry_without.
  destruct (ac !! v) as [l|]; [|done].
  case_bool_decide.
  - by rewrite lookup_delete_ne.
  - by rewrite lookup_insert_ne.
Qed.

Lemma lookup_registry_without ws v (ac : gmap Z (list positive)) :
  registry_without ws v ac !! v =
    match ac !! v with
    | Some l => if bool_decide (discard ws l = []) then None else Some (discard ws l)
    | None => None
    end.
Proof.
  unfold registry_without. destruct (ac !! v) as [l|] eqn:Hv; [|done].
  case_bool_decide.
  - by rewrite lookup_delete_eq.
  - by rewrite lookup_insert_eq.
Qed.

Lemma default_registry_without ws v (ac : gmap Z (list positive)) :
  default [] (registry_without ws v ac !! v) = discard ws (default [] (ac !! v)).
Proof.
  rewrite lookup_registry_without. destruct (ac !! v) as [l|]; [|done].
  by case_bool_decide as Hnil; simpl; [rewrite Hnil|].
Qed.

Lemma registry_without_no_empty ws v v' (ac : gmap Z (list positive)) :
  ac !! v' ≠ Some [] → registry_without ws v ac !! v' ≠ Some [].
Proof.
  intros Hv'. destruct (decide (v = v')) as [->|Hne].
  - rewrite lookup_registry_without. destruct (ac !! v') as [l|]; [|done].
    case_bool_decide; [done|congruence].
  - by rewrite lookup_registry_without_ne.
Qed.

Lemma tidy_registry_without ws v ac : tidy ac → tidy (registry_without ws v ac).
Proof.
  intros Hac v' l'. destruct (decide (v = v')) as [->|Hne].
  - rewrite lookup_registry_without.
    destruct (ac !! v') as [l|] eqn:Hv; [|done].
    case_bool_decide as Hnil; [done|]. intros [= <-]. split; [done|].
    apply NoDup_discard. by eapply Hac.
  - rewrite lookup_registry_without_ne by done. apply Hac.
Qed.

Lemma tidy_insert_snoc ws v (ac : gmap Z (list positive)) :
  tidy ac → ws ∉ default [] (ac !! v) →
  tidy (<[v := default [] (ac !! v) ++ [ws]]> ac).
Proof.
  intros Hac Hws v' l'. destruct (decide (v = v')) as [->|Hne].
  - rewrite lookup_insert_eq. intros [= <-]. split.
    + by destruct (default [] (ac !! v')).
    + apply NoDup_app. split_and!.
      * destruct (ac !! v') as [l|] eqn:Hv; [by eapply Hac|constructor].
      * intros c Hc ->%list_elem_of_singleton. done.
      * apply NoDup_singleton.
  - rewrite lookup_insert_ne by done. apply Hac.
Qed.

Lemma occurrences_discard ws l :
  occurrences ws l ≤ 1 → ws ∉ discard ws l.
Proof.
  unfold occurrences. induction l as [|c l IH]; intros Hocc.
  - apply not_elem_of_nil.
  - rewrite discard_cons. rewrite filter_cons in Hocc.
    case_bool_decide as Heq; [subst c|].
    + rewrite decide_True in Hocc by done. simpl in Hocc.
      intros Hin. assert (Hf : ws ∈ filter (λ c, c = ws) l)
        by (by apply list_elem_of_filter).
      destruct (filter (λ c, c = ws) l); [by apply elem_of_nil in Hf|].
      simpl in Hocc. lia.
    + rewrite decide_False in Hocc by done.
      apply not_elem_of_cons. split; [done|by apply IH].
Qed.

(** ** What a broadcast emits *)

Lemma recipients_app evs evs' :
  recipients (evs ++ evs') = recipients evs ++ recipients evs'.
Proof. apply omap_app. Qed.

Lemma received_by_app ws evs evs' :
  received_by ws (evs ++ evs') = received_by ws evs ++ received_by ws evs'.
Proof. apply omap_app. Qed.

Lemma recipients_broadcast_trace send_raises message l :
  recipients (broadcast_trace send_raises message l) =
    filter (λ c, send_raises c = None) l.
Proof.
  induction l as [|c l IH]; [done|].
  unfold broadcast_trace. simpl. fold (broadcast_trace send_raises message l).
  rewrite recipients_app, IH, filter_cons. unfold send_trace.
  destruct (send_raises c) as [e|] eqn:Hc.
  - by rewrite decide_False.
  - by rewrite decide_True.
Qed.

Lemma failures_broadcast_trace (send_raises : positive → option exn) (l : list positive) :
  length (filter (λ c, send_raises c = None) l)
    + length (filter (λ c, is_Some (send_raises c)) l) = length l.
Proof.
  induction l as [|c l IH]; [done|].
  rewrite !filter_cons. destruct (send_raises c) as [e|] eqn:Hc.
  - rewrite decide_False by done. rewrite decide_True by eauto. simpl. lia.
  - rewrite decide_True by done. rewrite decide_False by (by intros [? ?]).
    simpl. lia.
Qed.

Lemma received_by_broadcast_trace send_raises message l ws :
  received_by ws (broadcast_trace send_raises message l) =
    match send_raises ws with
    | None => replicate (occurrences ws l) message
    | Some _ => []
    end.
Proof.
  induction l as [|c l IH].
  - by destruct (send_raises ws).
  - unfold broadcast_trace. simpl. fold (broadcast_trace send_raises message l).
    rewrite received_by_app, IH. unfold occurrences. rewrite filter_cons.
    unfold send_trace. destruct (decide (c = ws)) as [->|Hc].
    + destruct (send_raises ws); [done|]. simpl.
      by rewrite bool_decide_eq_true_2.
    + destruct (send_raises c); simpl; [done|].
      by rewrite bool_decide_eq_false_2.
Qed.

Lemma targets_broadcast_trace send_raises message l :
  targets (broadcast_trace send_raises message l) = l.
Proof.
  induction l as [|c l IH]; [done|].
  unfold broadcast_trace. simpl. fold (broadcast_trace send_raises message l).
  unfold targets in *. rewrite omap_app, IH. unfold send_trace.
  by destruct (send_raises c).
Qed.

Lemma received_by_broadcast_trace_inv send_raises message l ws m :
  m ∈ received_by ws (broadcast_trace send_raises message l) → m = message.
Proof.
  rewrite received_by_broadcast_trace.
  destruct (send_raises ws); [by intros ?%elem_of_nil|].
  apply elem_of_replicate_inv.
Qed.

Lemma occurrences_NoDup ws l : NoDup l → occurrences ws l ≤ 1.
Proof.
  intros Hl. unfold occurrences.
  assert (Hf : NoDup (filter (λ c, c = ws) l)) by (by apply NoDup_filter).
  assert (Hall : ∀ c, c ∈ filter (λ c, c = ws) l → c = ws)
    by (by intros c [? _]%list_elem_of_filter).
  destruct (filter (λ c, c = ws) l) as [|a [|b f]]; simpl; [lia..|].
  rewrite (Hall a), (Hall b) in Hf by (rewrite !elem_of_cons; auto).
  apply NoDup_cons in Hf as [Hin _]. exfalso. apply Hin. by left.
Qed.

Lemma occurrences_elem_of ws l : ws ∈ l → 0 < occurrences ws l.
Proof.
  intros Hin. unfold occurrences.
  assert (Hf : ws ∈ filter (λ c, c = ws) l) by (by apply list_elem_of_filter).
  destruct (filter (λ c, c = ws) l); [by apply elem_of_nil in Hf|simpl; lia].
Qed.

Section Facts.

Context {Json : Type}.
Context (json_loads : string → option Json).
Context (json_dumps : Json → string).

Implicit Types (w : World (Json:=Json)) (ws c : positive) (v : Z).

(** ** The manager's operations in closed form *)

Lemma connect_refused e ws v w :
  connect (Raised e) ws v w = (Raised e, w).
Proof. reflexivity. Qed.

Lemma connect_accepted ws v w :
  connect (Returned tt) ws v w =
    (Returned tt,
     mkWorld (<[v := connections w v ++ [ws]]> (active_connections w))
             (vehicle_locations w)
             (emitted w ++ [Printed (NewConnection v (S (length (connections w v))))])).
Proof.
  destruct w as [ac locs out].
  unfold connect, connections, bind, accept, lift, contains, getitem, setitem,
    print, emit, ret; simpl.
  destruct (ac !! v) as [l|] eqn:Hv; simpl; run_lookups.
  - rewrite length_app, Nat.add_1_r. done.
  - by rewrite insert_insert_eq.
Qed.

Lemma disconnect_closed_form ws v w :
  disconnect ws v w =
    (Returned tt,
     mkWorld (registry_without ws v (active_connections w))
             (vehicle_locations w)
             (emitted w ++ [Printed (VehicleDisconnected v)])).
Proof.
  destruct w as [ac locs out].
  unfold disconnect, registry_without, bind, lift, contains, getitem, setitem,
    delitem, print, emit, ret; simpl.
  destruct (ac !! v) as [l|] eqn:Hv; simpl; run_lookups; [|done].
  case_bool_decide as Hin; simpl.
  - destruct (list_remove_elem_of ws l Hin) as [l' Hl'].
    unfold discard. rewrite Hl'. simpl. run_lookups.
    case_bool_decide; simpl; run_lookups; [|done].
    by rewrite delete_insert_eq.
  - rewrite discard_not_elem_of by done. run_lookups.
    case_bool_decide; simpl; run_lookups; [done|].
    by rewrite insert_id.
Qed.

Lemma send_to_each_closed_form send_raises message l w :
  send_to_each send_raises message l w =
    (Returned tt,
     mkWorld (active_connections w) (vehicle_locations w)
             (emitted w ++ broadcast_trace send_raises message l)).
Proof.
  revert w. induction l as [|c l IH]; intros [ac locs out]; simpl.
  - unfold ret, broadcast_trace. simpl. by rewrite app_nil_r.
  - unfold broadcast_trace. simpl. fold (broadcast_trace send_raises message l).
    unfold bind, try_except, send_text, send_trace.
    destruct (send_raises c) as [e|];
      unfold bind, emit, print, emit, raise; simpl;
      rewrite IH; simpl; by rewrite <- !app_assoc.
Qed.

Lemma broadcast_closed_form send_raises v message w :
  broadcast send_raises v message w =
    (Returned tt,
     mkWorld (active_connections w) (vehicle_locations w)
             (emitted w ++ broadcast_trace send_raises message (connections w v))).
Proof.
  unfold broadcast, connections, bind, contains, getitem, ret.
  destruct (active_connections w !! v) as [l|] eqn:Hv; simpl.
  - rewrite Hv. apply send_to_each_closed_form.
  - unfold broadcast_trace. simpl. rewrite app_nil_r. by destruct w.
Qed.

(** ** The endpoint in closed form *)

#[local] Arguments except_clauses : simpl never.

Lemma except_clauses_closed_form ws v e w :
  except_clauses ws v e w =
    (Returned tt,
     mkWorld (registry_without ws v (active_connections w))
             (vehicle_locations w)
             (emitted w ++ loop_error_lines e ++ [Printed (VehicleDisconnected v)])).
Proof.
  destruct e; unfold except_clauses, bind, print, emit;
    rewrite disconnect_closed_form; simpl;
    by rewrite <- ?app_assoc.
Qed.

Lemma turn_raised e send_raises ws v w :
  turn json_loads json_dumps (Raised e) send_raises ws v w =
    (Returned CLOSED, (except_clauses ws v e w).2).
Proof.
  unfold turn, try_except, loop_body, bind, receive_text, lift. simpl.
  by rewrite except_clauses_closed_form.
Qed.

Lemma turn_malformed data send_raises ws v w :
  json_loads data = None →
  turn json_loads json_dumps (Returned data) send_raises ws v w =
    (Returned CLOSED, (except_clauses ws v JSONDecodeError w).2).
Proof.
  intros Hdata.
  unfold turn, try_except, loop_body, bind, receive_text, lift, loads. simpl.
  rewrite Hdata. unfold raise.
  by rewrite except_clauses_closed_form.
Qed.

Lemma turn_parsed data location send_raises ws v w :
  json_loads data = Some location →
  turn json_loads json_dumps (Returned data) send_raises ws v w =
    (Returned OPEN,
     (broadcast send_raises v (json_dumps location) (set_location v location w).2).2).
Proof.
  intros Hdata.
  unfold turn, try_except, loop_body, bind, receive_text, lift, loads. simpl.
  rewrite Hdata. unfold ret. simpl.
  by rewrite broadcast_closed_form.
Qed.

Lemma turn_returns incoming send_raises ws v w :
  ∃ st w', turn json_loads json_dumps incoming send_raises ws v w = (Returned st, w')
    ∧ (st = OPEN ∧ active_connections w' = active_connections w
       ∨ st = CLOSED
         ∧ active_connections w' = registry_without ws v (active_connections w)).
Proof.
  destruct incoming as [data|e].
  - destruct (json_loads data) as [location|] eqn:Hdata.
    + rewrite (turn_parsed _ _ _ _ _ _ Hdata), broadcast_closed_form.
      eexists _, _. split; [done|]. by left.
    + rewrite turn_malformed, except_clauses_closed_form by done.
      eexists _, _. split; [done|]. by right.
  - rewrite turn_raised, except_clauses_closed_form.
    eexists _, _. split; [done|]. by right.
Qed.

(** ** The registry and the coroutines agree *)

Lemma connections_eq w w' v :
  active_connections w' = active_connections w → connections w' v = connections w v.
Proof. unfold connections. by intros ->. Qed.

Lemma consistent_boot : consistent (Json:=Json) boot.
Proof.
  split.
  - intros v l. simpl. by rewrite lookup_empty.
  - intros v ws. unfold connections. simpl. rewrite !lookup_empty. simpl.
    split; [by intros ?%elem_of_nil|done].
Qed.

Lemma consistent_upgrade s ws v handshake :
  consistent s → consistent (step json_loads json_dumps s (Upgrade ws v handshake)).
Proof.
  intros [Htidy Hreg]. simpl.
  destruct (sessions s !! ws) as [?|] eqn:Hs; [done|].
  assert (Hfresh : ∀ v', ws ∉ connections (world s) v').
  { intros v' Hin%Hreg. congruence. }
  destruct handshake as [[]|e].
  - rewrite connect_accepted. split; simpl.
    + apply tidy_insert_snoc; [done|apply Hfresh].
    + intros v' c. unfold connections at 1. simpl.
      destruct (decide (v = v')) as [<-|Hv], (decide (c = ws)) as [->|Hc];
        rewrite ?lookup_insert_eq, ?lookup_insert_ne by done; simpl.
      * rewrite elem_of_app, list_elem_of_singleton. split; [done|by right].
      * rewrite elem_of_app, list_elem_of_singleton, <- Hreg.
        split; [by intros [?|?]|by left].
      * split; [by intros ?%Hfresh|]. by intros [= ?].
      * apply Hreg.
  - rewrite connect_refused. split; simpl; [done|].
    intros v' c. destruct (decide (c = ws)) as [->|Hc].
    + rewrite lookup_insert_eq. split; [by intros ?%Hfresh|done].
    + rewrite lookup_insert_ne by done. apply Hreg.
Qed.

Lemma consistent_frame s ws incoming send_raises :
  consistent s →
  consistent (step json_loads json_dumps s (Frame ws incoming send_raises)).
Proof.
  intros [Htidy Hreg]. simpl.
  destruct (sessions s !! ws) as [[v st]|] eqn:Hs; [|done].
  destruct st; try done.
  destruct (turn_returns incoming send_raises ws v (world s))
    as (st & w' & -> & [[-> Hac]|[-> Hac]]); simpl.
  - rewrite insert_id by done. split; simpl; [by rewrite Hac|].
    intros v' c. by rewrite (connections_eq _ _ _ Hac).
  - split; simpl; [rewrite Hac; by apply tidy_registry_without|].
    intros v' c. unfold connections at 1. rewrite Hac.
    destruct (decide (v = v')) as [<-|Hv], (decide (c = ws)) as [->|Hc];
      rewrite ?lookup_insert_eq, ?lookup_insert_ne by done.
    + rewrite default_registry_without. split; [|done].
      intros Hin. exfalso. revert Hin. apply NoDup_discard.
      destruct (active_connections (world s) !! v) as [l|] eqn:Hl;
        [by eapply Htidy|constructor].
    + rewrite default_registry_without, elem_of_discard_ne by done. apply Hreg.
    + rewrite lookup_registry_without_ne by done.
      split; [|intros [= ?]; done]. intros Hin%Hreg. congruence.
    + rewrite lookup_registry_without_ne by done. apply Hreg.
Qed.

Lemma consistent_step s i :
  consistent s → consistent (step json_loads json_dumps s i).
Proof.
  destruct i; [apply consistent_upgrade|apply consistent_frame].
Qed.

Lemma consistent_run_from s inputs :
  consistent s → consistent (run json_loads json_dumps s inputs).
Proof.
  revert s. induction inputs as [|i inputs IH]; intros s Hs; [done|].
  simpl. apply IH. by apply consistent_step.
Qed.

Lemma consistent_run inputs :
  consistent (run json_loads json_dumps boot inputs).
Proof. apply consistent_run_from, consistent_boot. Qed.

(** A turn that ends the loop closes the coroutine and takes the
    websocket out of every list. *)
Lemma closing_frame s ws v incoming send_raises :
  consistent s → sessions s !! ws = Some (v, OPEN) →
  ends_loop json_loads incoming →
  ∃ e, step json_loads json_dumps s (Frame ws incoming send_raises) =
         mkServer (except_clauses ws v e (world s)).2
                  (<[ws := (v, CLOSED)]> (sessions s))
       ∧ (incoming = Raised e ∨ e = JSONDecodeError)
       ∧ ∀ v', ws ∉ connections (except_clauses ws v e (world s)).2 v'.
Proof.
  intros Hs Hopen Hend. simpl. rewrite Hopen.
  assert (Hcons := consistent_frame s ws incoming send_raises Hs).
  simpl in Hcons. rewrite Hopen in Hcons.
  assert (∃ e, turn json_loads json_dumps incoming send_raises ws v (world s) =
                 (Returned CLOSED, (except_clauses ws v e (world s)).2)
               ∧ (incoming = Raised e ∨ e = JSONDecodeError)) as (e & Hturn & He).
  { destruct incoming as [data|e]; simpl in Hend.
    - exists JSONDecodeError. rewrite turn_malformed by done. auto.
    - exists e. rewrite turn_raised. auto. }
  rewrite Hturn in Hcons |- *. exists e. split_and!; [done..|].
  intros v' Hin%Hcons. simpl in Hin. rewrite lookup_insert_eq in Hin. congruence.
Qed.

Lemma closed_is_final s ws v :
  sessions s !! ws = Some (v, CLOSED) →
  ∀ incoming send_raises,
    step json_loads json_dumps s (Frame ws incoming send_raises) = s.
Proof. intros Hs incoming send_raises. simpl. by rewrite Hs. Qed.

(** ** The events between two worlds *)

Lemma emitted_since_app w w' evs :
  emitted w' = emitted w ++ evs → emitted_since w w' = evs.
Proof. unfold emitted_since. intros ->. by rewrite drop_app_length. Qed.

Lemma emitted_since_broadcast send_raises v message w :
  emitted_since w (broadcast send_raises v message w).2 =
    broadcast_trace send_raises message (connections w v).
Proof. rewrite broadcast_closed_form. by apply emitted_since_app. Qed.

(** ** The connection registry *)


Lemma registry_without_idempotent ws v (ac : gmap Z (list positive)) :
  occurrences ws (default [] (ac !! v)) ≤ 1 →
  registry_without ws v (registry_without ws v ac) = registry_without ws v ac.
Proof.
  intros Hocc. unfold registry_without at 2 3.
  destruct (ac !! v) as [l|] eqn:Hv; simpl in Hocc.
  - case_bool_decide as Hnil.
    + unfold registry_without. by rewrite lookup_delete_eq.
    + unfold registry_without. rewrite lookup_insert_eq.
      rewrite (discard_not_elem_of ws (discard ws l))
        by (by apply occurrences_discard).
      rewrite bool_decide_eq_false_2 by done. apply insert_insert_eq.
  - unfold registry_without. by rewrite Hv.
Qed.

Lemma registry_without_unlisted ws v (ac : gmap Z (list positive)) :
  ws ∉ default [] (ac !! v) → ac !! v ≠ Some [] →
  registry_without ws v ac = ac.
Proof.
  intros Hws Hne. unfold registry_without.
  destruct (ac !! v) as [l|] eqn:Hv; [|done]. simpl in Hws.
  rewrite discard_not_elem_of by done.
  rewrite bool_decide_eq_false_2 by congruence. by apply insert_id.
Qed.

(** C8. [connect], once the handshake is accepted, returns normally
    whatever the registry holds: it appends the websocket to the list
    of the vehicle, an absent key counting as the empty list and being
    created, and that list is longer by exactly one. *)
Theorem connect_adds_one w ws v :
  ∃ w', connect (Returned tt) ws v w = (Returned tt, w')
    ∧ active_connections w' !! v = Some (connections w v ++ [ws])
    ∧ ws ∈ connections w' v
    ∧ length (connections w' v) = S (length (connections w v)).
Proof.
  rewrite connect_accepted. eexists. split; [done|].
  assert (Hnew : ∀ l (locs : gmap Z Json) out,
    connections (mkWorld (<[v := l]> (active_connections w)) locs out) v = l).
  { intros l locs out. unfold connections. simpl. by rewrite lookup_insert_eq. }
  rewrite Hnew. simpl. rewrite lookup_insert_eq. split_and!; [done| |].
  - apply elem_of_app. right. by apply list_elem_of_singleton.
  - rewrite length_app. simpl. lia.
Qed.


Lemma no_empty_list_connect handshake ws v w :
  no_empty_list (active_connections w) →
  no_empty_list (active_connections (connect handshake ws v w).2).
Proof.
  intros Hw v'. destruct handshake as [[]|e].
  - rewrite connect_accepted. simpl. destruct (decide (v = v')) as [->|Hv].
    + rewrite lookup_insert_eq. intros [= Hnil].
      by destruct (connections w v').
    + by rewrite lookup_insert_ne.
  - rewrite connect_refused. apply Hw.
Qed.

Lemma no_empty_list_disconnect ws v w :
  no_empty_list (active_connections w) →
  no_empty_list (active_connections (disconnect ws v w).2).
Proof.
  intros Hw v'. rewrite disconnect_closed_form. simpl.
  by apply registry_without_no_empty.
Qed.

Lemma no_empty_list_apply_ops ops w :
  no_empty_list (active_connections w) →
  no_empty_list (active_connections (apply_ops w ops)).
Proof.
  revert w. induction ops as [|o ops IH]; intros w Hw; [done|].
  simpl. apply IH. destruct o; simpl.
  - by apply no_empty_list_connect.
  - by apply no_empty_list_disconnect.
Qed.

(** C3. After any sequence of [connect] and [disconnect] calls on the
    empty registry, a key is present exactly when some connection is
    listed under it; and when the only connection listed under a
    vehicle is disconnected, the key itself is gone. *)
Theorem key_present_iff_connections (ops : list Op) v ws :
  let w := apply_ops (Json:=Json) empty_world ops in
  (is_Some (active_connections w !! v) ↔ connections w v ≠ [])
  ∧ (connections w v = [ws] →
     active_connections (disconnect ws v w).2 !! v = None).
Proof.
  intros w.
  assert (Hw : no_empty_list (active_connections w)).
  { apply no_empty_list_apply_ops. intros v'. simpl. by rewrite lookup_empty. }
  unfold connections. split.
  - specialize (Hw v). destruct (active_connections w !! v) as [l|]; simpl.
    + split; [congruence|eauto].
    + split; [by intros [? ?]|done].
  - intros Hone. rewrite disconnect_closed_form. simpl.
    rewrite lookup_registry_without.
    destruct (active_connections w !! v) as [l|]; [|done].
    simpl in Hone. subst l. rewrite discard_cons.
    rewrite (bool_decide_eq_true_2 (ws = ws)) by done.
    by rewrite bool_decide_eq_true_2.
Qed.

(** ** The location channel *)

Lemma broadcast_no_connection send_raises v message w :
  connections w v = [] → broadcast send_raises v message w = (Returned tt, w).
Proof.
  intros Hnone. rewrite broadcast_closed_form, Hnone.
  unfold broadcast_trace. simpl. rewrite app_nil_r. by destruct w.
Qed.

(** C10. On a frame that parses, the endpoint stores the parsed value
    under the vehicle and only then broadcasts: the turn is the
    broadcast run on the world that already holds the new cache
    entry, and the entry is there afterwards whichever sends raise.
    On a frame that does not parse the whole cache is as before. *)
Theorem turn_caches_before_broadcast w ws v data send_raises :
  (∀ location, json_loads data = Some location →
     turn json_loads json_dumps (Returned data) send_raises ws v w
       = (Returned OPEN,
          (broadcast send_raises v (json_dumps location)
                     (set_location v location w).2).2)
     ∧ vehicle_locations (set_location v location w).2 !! v = Some location
     ∧ vehicle_locations
         (turn json_loads json_dumps (Returned data) send_raises ws v w).2 !! v
         = Some location)
  ∧ (json_loads data = None →
     vehicle_locations
       (turn json_loads json_dumps (Returned data) send_raises ws v w).2
       = vehicle_locations w).
Proof.
  split.
  - intros location Hdata. rewrite (turn_parsed _ _ _ _ _ _ Hdata).
    rewrite broadcast_closed_form. simpl. by rewrite lookup_insert_eq.
  - intros Hdata. rewrite turn_malformed by done.
    by rewrite except_clauses_closed_form.
Qed.

(** C1, as the code has it. A frame that does not parse is dropped
    without a broadcast and without touching the cache, but it ends
    the connection: [json.loads] raises inside the [try], the generic
    [except] clause prints the error and calls [disconnect], and the
    coroutine returns. The websocket is [CLOSED], listed nowhere, and
    no later frame of it is read. *)
Theorem malformed_frame_closes_connection (inputs : list Input) ws v data send_raises :
  let s := run json_loads json_dumps boot inputs in
  sessions s !! ws = Some (v, OPEN) →
  json_loads data = None →
  let s' := step json_loads json_dumps s (Frame ws (Returned data) send_raises) in
  sessions s' !! ws = Some (v, CLOSED)
  ∧ (∀ v', ws ∉ connections (world s') v')
  ∧ vehicle_locations (world s') = vehicle_locations (world s)
  ∧ emitted_since (world s) (world s') =
      [Printed (ErrorInLoop JSONDecodeError); Printed (VehicleDisconnected v)]
  ∧ ∀ incoming send_raises',
      step json_loads json_dumps s' (Frame ws incoming send_raises') = s'.
Proof.
  intros s Hopen Hdata s'.
  destruct (closing_frame s ws v (Returned data) send_raises
              (consistent_run inputs) Hopen Hdata) as (e & Hs' & He & Hgone).
  destruct He as [He| ->]; [discriminate He|].
  subst s'. rewrite Hs'. split_and!; simpl.
  - by rewrite lookup_insert_eq.
  - done.
  - by rewrite except_clauses_closed_form.
  - rewrite except_clauses_closed_form. by apply emitted_since_app.
  - intros incoming' send_raises'. by rewrite lookup_insert_eq.
Qed.

(** C7. Whatever ends the receive loop of an open connection -- the
    peer closing, [receive_text] raising anything else, a frame
    [json.loads] rejects -- runs [disconnect]: the websocket is
    [CLOSED], listed under no vehicle, and its coroutine takes no
    further turn. No entry is leaked: every websocket still listed
    belongs to an open connection. *)
Theorem terminating_event_deregisters (inputs : list Input) ws v incoming send_raises :
  let s := run json_loads json_dumps boot inputs in
  sessions s !! ws = Some (v, OPEN) →
  ends_loop json_loads incoming →
  let s' := step json_loads json_dumps s (Frame ws incoming send_raises) in
  sessions s' !! ws = Some (v, CLOSED)
  ∧ (∀ v', ws ∉ connections (world s') v')
  ∧ (∀ c v', c ∈ connections (world s') v' → sessions s' !! c = Some (v', OPEN))
  ∧ ∀ incoming' send_raises',
      step json_loads json_dumps s' (Frame ws incoming' send_raises') = s'.
Proof.
  intros s Hopen Hend s'.
  assert (Hleak : consistent s')
    by apply consistent_step, consistent_run.
  destruct (closing_frame s ws v incoming send_raises
              (consistent_run inputs) Hopen Hend) as (e & Hs' & _ & Hgone).
  split_and!.
  - subst s'. rewrite Hs'. simpl. by rewrite lookup_insert_eq.
  - subst s'. by rewrite Hs'.
  - intros c v'. apply Hleak.
  - intros incoming' send_raises'. subst s'. rewrite Hs'. simpl.
    by rewrite lookup_insert_eq.
Qed.

(** ** What the endpoint never builds

    In every state the server reaches, each list of the registry is
    non-empty, a websocket is listed at most once under its vehicle and
    under no other vehicle. *)

Lemma reachable_no_empty_list (inputs : list Input) :
  no_empty_list (active_connections (world (run json_loads json_dumps boot inputs))).
Proof.
  destruct (consistent_run inputs) as [Htidy _]. intros v Hv.
  by destruct (Htidy v [] Hv).
Qed.

Lemma reachable_listed_once (inputs : list Input) ws v :
  occurrences ws (connections (world (run json_loads json_dumps boot inputs)) v) ≤ 1.
Proof.
  destruct (consistent_run inputs) as [Htidy _]. apply occurrences_NoDup.
  unfold connections.
  destruct (active_connections _ !! v) as [l|] eqn:Hv; [by eapply Htidy|constructor].
Qed.

Lemma reachable_not_shared (inputs : list Input) c v v' :
  v ≠ v' →
  c ∈ connections (world (run json_loads json_dumps boot inputs)) v' →
  c ∉ connections (world (run json_loads json_dumps boot inputs)) v.
Proof.
  destruct (consistent_run inputs) as [_ Hreg].
  intros Hv Hin'%Hreg Hin%Hreg. congruence.
Qed.

(** ** One coroutine on its own

    Run without any other connection in between, the inputs of one
    websocket take the server through exactly what
    [websocket_location] computes. *)

Lemma frames_after_close s ws v script :
  sessions s !! ws = Some (v, CLOSED) →
  run json_loads json_dumps s (frames ws script) = s.
Proof.
  intros Hs. induction script as [|[incoming send_raises] script IH]; [done|].
  simpl. by rewrite Hs.
Qed.

Lemma receive_loop_as_steps script s ws v :
  sessions s !! ws = Some (v, OPEN) →
  ∃ st w', receive_loop json_loads json_dumps script ws v (world s) = (Returned st, w')
    ∧ run json_loads json_dumps s (frames ws script)
        = mkServer w' (<[ws := (v, st)]> (sessions s)).
Proof.
  revert s. induction script as [|[incoming send_raises] script IH]; intros s Hs.
  - exists OPEN, (world s). split; [done|]. simpl.
    rewrite insert_id by done. by destruct s.
  - simpl. rewrite Hs. unfold bind.
    destruct (turn_returns incoming send_raises ws v (world s))
      as (st & w1 & -> & [[-> _]|[-> _]]); simpl.
    + destruct (IH (mkServer w1 (<[ws := (v, OPEN)]> (sessions s))))
        as (st & w' & Hloop & Hrun); [by simpl; rewrite lookup_insert_eq|].
      simpl in Hloop, Hrun. exists st, w'. split; [done|].
      rewrite Hrun. by rewrite insert_insert_eq.
    + exists CLOSED, w1. split; [done|].
      apply frames_after_close with v. simpl. by rewrite lookup_insert_eq.
Qed.

Lemma websocket_location_as_steps handshake script s ws v :
  sessions s !! ws = None →
  run json_loads json_dumps s (Upgrade ws v handshake :: frames ws script)
    = let '(r, w') := websocket_location json_loads json_dumps
                        handshake script ws v (world s) in
      mkServer w' (<[ws := (v, status_of r id)]> (sessions s)).
Proof.
  intros Hs. unfold websocket_location, bind. simpl. rewrite Hs.
  destruct handshake as [[]|e].
  - rewrite connect_accepted. simpl.
    match goal with |- run _ _ ?s1 _ = _ =>
      destruct (receive_loop_as_steps script s1 ws v) as (st & w' & Hloop & Hrun)
    end; [by simpl; rewrite lookup_insert_eq|].
    simpl in Hloop, Hrun. rewrite Hloop, Hrun. simpl.
    by rewrite insert_insert_eq.
  - rewrite connect_refused. simpl.
    apply frames_after_close with v. simpl. by rewrite lookup_insert_eq.
Qed.

End Facts.

(** * The model on concrete inputs *)

(** C1 fails on the code: [alice] is open under vehicle 1 and sends
    [not-json]. Her coroutine ends ([CLOSED], not [OPEN]), she is no
    longer listed, and the position she sends next is read by nobody:
    the server does not move and [bob] receives nothing. *)
Lemma malformed_frame_keeps_open_counterexample :
  sessions Demo.server !! Demo.alice = Some (1%Z, OPEN)
  ∧ Flat.loads "not-json" = None
  ∧ sessions Demo.after_malformed !! Demo.alice = Some (1%Z, CLOSED)
  ∧ sessions Demo.after_malformed !! Demo.alice ≠ Some (1%Z, OPEN)
  ∧ (Demo.alice ∉ connections (world Demo.after_malformed) 1)
  ∧ Flat.loads Flat.position_text = Some Flat.position
  ∧ Demo.after_retry = Demo.after_malformed
  ∧ received_by Demo.bob
      (emitted_since (world Demo.after_malformed) (world Demo.after_retry)) = [].
Proof.
  assert (Hclosed : sessions Demo.after_malformed !! Demo.alice = Some (1%Z, CLOSED))
    by (vm_compute; reflexivity).
  assert (Hsame : Demo.after_retry = Demo.after_malformed).
  { exact (closed_is_final Flat.loads Flat.dumps _ _ _ Hclosed _ _). }
  split_and!.
  - vm_compute; reflexivity.
  - reflexivity.
  - exact Hclosed.
  - rewrite Hclosed. discriminate.
  - evaluate.
  - vm_compute; reflexivity.
  - exact Hsame.
  - rewrite Hsame. unfold emitted_since. by rewrite drop_all.
Qed.

Lemma malformed_frame_closes_connection_witness :
  sessions (run Flat.loads Flat.dumps boot Demo.upgrades) !! Demo.alice
    = Some (1%Z, OPEN)
  ∧ Flat.loads "not-json" = None
  ∧ sessions Demo.after_malformed !! Demo.alice = Some (1%Z, CLOSED)
  ∧ ∀ v', Demo.alice ∉ connections (world Demo.after_malformed) v'.
Proof.
  assert (Hopen : sessions (run Flat.loads Flat.dumps boot Demo.upgrades) !! Demo.alice
                    = Some (1%Z, OPEN)) by (vm_compute; reflexivity).
  assert (Hdata : Flat.loads "not-json" = None) by reflexivity.
  split; [exact Hopen|]. split; [exact Hdata|].
  destruct (malformed_frame_closes_connection Flat.loads Flat.dumps
              Demo.upgrades Demo.alice 1 "not-json" all_alive Hopen Hdata)
    as (Hclosed & Hgone & _).
  split; [exact Hclosed|exact Hgone].
Defined.


Lemma key_present_iff_connections_witness :
  let w := apply_ops (Json:=Flat.value) empty_world
             [OpConnect Demo.alice 1 Demo.accepted] in
  connections w 1 = [Demo.alice]
  ∧ is_Some (active_connections w !! 1%Z)
  ∧ active_connections (disconnect Demo.alice 1 w).2 !! 1%Z = None.
Proof.
  intros w.
  assert (Hone : connections w 1 = [Demo.alice]) by (vm_compute; reflexivity).
  destruct (key_present_iff_connections (Json:=Flat.value)
              [OpConnect Demo.alice 1 Demo.accepted] 1 Demo.alice) as [Hiff Hlast].
  split; [exact Hone|]. split.
  - apply Hiff. fold w. rewrite Hone. discriminate.
  - exact (Hlast Hone).
Defined.

Lemma terminating_event_deregisters_witness :
  sessions (run Flat.loads Flat.dumps boot Demo.upgrades) !! Demo.alice
    = Some (1%Z, OPEN)
  ∧ ends_loop Flat.loads (Raised WebSocketDisconnect)
  ∧ sessions (step Flat.loads Flat.dumps Demo.server
                (Frame Demo.alice (Raised WebSocketDisconnect) all_alive))
      !! Demo.alice = Some (1%Z, CLOSED)
  ∧ ∀ v', Demo.alice ∉ connections
            (world (step Flat.loads Flat.dumps Demo.server
                      (Frame Demo.alice (Raised WebSocketDisconnect) all_alive))) v'.
Proof.
  assert (Hopen : sessions (run Flat.loads Flat.dumps boot Demo.upgrades) !! Demo.alice
                    = Some (1%Z, OPEN)) by (vm_compute; reflexivity).
  split; [exact Hopen|]. split; [exact I|].
  destruct (terminating_event_deregisters Flat.loads Flat.dumps Demo.upgrades
              Demo.alice 1 (Raised WebSocketDisconnect) all_alive Hopen I)
    as (Hclosed & Hgone & _).
  split; [exact Hclosed|exact Hgone].
Defined.

Lemma turn_caches_before_broadcast_witness :
  Flat.loads Flat.position_text = Some Flat.position
  ∧ vehicle_locations
      (turn Flat.loads Flat.dumps (Returned Flat.position_text) all_dead
            Demo.alice 1 Demo.viewers).2 !! 1%Z = Some Flat.position
  ∧ Flat.loads "not-json" = None
  ∧ vehicle_locations
      (turn Flat.loads Flat.dumps (Returned "not-json") all_dead
            Demo.alice 1 Demo.viewers).2 = vehicle_locations Demo.viewers.
Proof.
  assert (Hdata : Flat.loads Flat.position_text = Some Flat.position)
    by (vm_compute; reflexivity).
  assert (Hbad : Flat.loads "not-json" = None) by reflexivity.
  split; [exact Hdata|]. split; [|split; [exact Hbad|]].
  - destruct (turn_caches_before_broadcast Flat.loads Flat.dumps Demo.viewers
                Demo.alice 1 Flat.position_text all_dead) as [Hparsed _].
    destruct (Hparsed Flat.position Hdata) as (_ & _ & Hcached). exact Hcached.
  - destruct (turn_caches_before_broadcast Flat.loads Flat.dumps Demo.viewers
                Demo.alice 1 "not-json" all_dead) as [_ Hkept].
    exact (Hkept Hbad).
Defined.


(** * Further properties of the tracking module *)

Lemma discard_snoc ws l : ws ∉ l → discard ws (l ++ [ws]) = l.
Proof.
  induction l as [|c l IH]; intros Hws.
  - simpl. rewrite discard_cons. by rewrite bool_decide_eq_true_2.
  - apply not_elem_of_cons in Hws as [Hc Hl]. simpl. rewrite discard_cons.
    rewrite bool_decide_eq_false_2 by done. by rewrite IH.
Qed.

Lemma occurrences_cons ws c l :
  occurrences ws (c :: l) =
    if bool_decide (c = ws) then S (occurrences ws l) else occurrences ws l.
Proof.
  unfold occurrences. rewrite filter_cons.
  case_bool_decide; [by rewrite decide_True|by rewrite decide_False].
Qed.

Lemma occurrences_after_discard ws c l :
  occurrences c (discard ws l) =
    if bool_decide (c = ws) then pred (occurrences ws l) else occurrences c l.
Proof.
  induction l as [|d l IH]; [by case_bool_decide|].
  rewrite discard_cons. destruct (decide (ws = d)) as [<-|Hd].
  - rewrite bool_decide_eq_true_2 by done. rewrite !occurrences_cons.
    case_bool_decide as Hc.
    + subst c. by rewrite bool_decide_eq_true_2.
    + by rewrite bool_decide_eq_false_2 by congruence.
  - rewrite bool_decide_eq_false_2 by done. rewrite !occurrences_cons, IH.
    case_bool_decide as Hc.
    + subst c. by rewrite bool_decide_eq_false_2 by congruence.
    + done.
Qed.

Lemma registry_round_trip ws v (ac : gmap Z (list positive)) :
  ws ∉ default [] (ac !! v) → ac !! v ≠ Some [] →
  registry_without ws v (<[v := default [] (ac !! v) ++ [ws]]> ac) = ac.
Proof.
  intros Hfresh Hne. unfold registry_without. rewrite lookup_insert_eq.
  rewrite discard_snoc by done.
  destruct (ac !! v) as [l|] eqn:Hv; simpl.
  - rewrite bool_decide_eq_false_2 by congruence.
    rewrite insert_insert_eq. by apply insert_id.
  - rewrite delete_insert_eq. by apply delete_id.
Qed.

Section MoreFacts.

Context {Json : Type}.
Context (json_loads : string → option Json).
Context (json_dumps : Json → string).

Implicit Types (w : World (Json:=Json)) (ws c : positive) (v : Z).

(** X1. When the handshake fails, [websocket.accept] raises inside
    [connect], before the registry is touched and outside the [try] of
    the endpoint: the exception leaves [websocket_location] as it is,
    no frame is ever read, [disconnect] is not called, and the
    registry, the cache and the output are what they were. *)
Theorem refused_handshake_changes_nothing e script ws v w :
  websocket_location json_loads json_dumps (Raised e) script ws v w = (Raised e, w).
Proof. reflexivity. Qed.

(** X2. [disconnect] takes out exactly one listing of the websocket, if
    there is one, and nothing else: under the vehicle the count of that
    websocket drops by one (staying at zero), the count of every other
    connection is unchanged, and the connections that remain keep
    their order. *)
Theorem disconnect_removes_one_listing w ws v c :
  occurrences c (connections (disconnect ws v w).2 v) =
    (if bool_decide (c = ws) then pred (occurrences ws (connections w v))
     else occurrences c (connections w v))
  ∧ connections (disconnect ws v w).2 v `sublist_of` connections w v.
Proof.
  rewrite disconnect_closed_form. unfold connections. simpl.
  rewrite default_registry_without. split.
  - apply occurrences_after_discard.
  - apply discard_sublist.
Qed.

(** X3. Registering a websocket that is not yet listed and then
    disconnecting it gives back the registry as it was, key for key,
    provided the vehicle's key was absent or held a non-empty list. *)
Theorem connect_then_disconnect_restores w ws v :
  ws ∉ connections w v →
  active_connections w !! v ≠ Some [] →
  active_connections (disconnect ws v (connect (Returned tt) ws v w).2).2
    = active_connections w.
Proof.
  intros Hfresh Hne. rewrite connect_accepted, disconnect_closed_form. simpl.
  by apply registry_round_trip.
Qed.

(** ** The coroutine over a whole script *)

Lemma keeps_loop_parses (incoming : Result string) :
  ¬ ends_loop json_loads incoming →
  ∃ data location, incoming = Returned data ∧ json_loads data = Some location.
Proof.
  destruct incoming as [data|e]; simpl; [|by intros []].
  destruct (json_loads data) as [location|] eqn:Hdata; [eauto|by intros []].
Qed.

Lemma receive_loop_ending incoming send_raises rest ws v w :
  ends_loop json_loads incoming →
  ∃ e, receive_loop json_loads json_dumps ((incoming, send_raises) :: rest) ws v w
         = (Returned CLOSED, (except_clauses ws v e w).2).
Proof.
  intros Hend. simpl. unfold bind.
  destruct incoming as [data|e]; simpl in Hend.
  - exists JSONDecodeError. by rewrite turn_malformed.
  - exists e. by rewrite turn_raised.
Qed.

Lemma receive_loop_rest_unread incoming send_raises rest ws v w :
  ends_loop json_loads incoming →
  receive_loop json_loads json_dumps ((incoming, send_raises) :: rest) ws v w
    = receive_loop json_loads json_dumps [(incoming, send_raises)] ws v w.
Proof.
  intros Hend. simpl. unfold bind.
  destruct incoming as [data|e]; simpl in Hend.
  - by rewrite turn_malformed.
  - by rewrite turn_raised.
Qed.

Lemma receive_loop_all_parse script ws v w :
  all_parse json_loads script →
  ∃ evs locs,
    receive_loop json_loads json_dumps script ws v w
      = (Returned OPEN, mkWorld (active_connections w) locs (emitted w ++ evs))
    ∧ ∀ c, alive_throughout c script →
           received_by c evs =
             flat_map (replicate (occurrences c (connections w v)))
                      (payloads json_loads json_dumps script).
Proof.
  revert w. induction script as [|[incoming send_raises] script IH]; intros w Hall.
  - exists [], (vehicle_locations w). split; [|done].
    simpl. unfold ret. rewrite app_nil_r. by destruct w.
  - apply Forall_cons in Hall as [Hhead Hall]. simpl in Hhead.
    destruct (keeps_loop_parses _ Hhead) as (data & location & -> & Hdata).
    simpl. unfold bind. rewrite (turn_parsed _ _ _ _ _ _ _ _ Hdata).
    rewrite broadcast_closed_form. simpl.
    match goal with |- context [receive_loop _ _ _ _ _ ?w1] =>
      destruct (IH w1 Hall) as (evs & locs & Hloop & Hreceived) end.
    rewrite Hloop. simpl. eexists _, locs. split.
    + by rewrite <- app_assoc.
    + intros c [Hc Halive]%Forall_cons. simpl in Hc.
      unfold payloads. simpl. rewrite Hdata. simpl.
      rewrite received_by_app, received_by_broadcast_trace, Hc.
      f_equal. by apply Hreceived.
Qed.

Lemma receive_loop_app pre rest ws v w :
  all_parse json_loads pre →
  receive_loop json_loads json_dumps (pre ++ rest) ws v w
    = receive_loop json_loads json_dumps rest ws v
        (receive_loop json_loads json_dumps pre ws v w).2.
Proof.
  revert w. induction pre as [|[incoming send_raises] pre IH]; intros w Hall; [done|].
  apply Forall_cons in Hall as [Hhead Hall]. simpl in Hhead.
  destruct (keeps_loop_parses _ Hhead) as (data & location & -> & Hdata).
  simpl. unfold bind. rewrite (turn_parsed _ _ _ _ _ _ _ _ Hdata). simpl.
  by apply IH.
Qed.

(** X4. The coroutine runs until the first input that ends the loop and
    reads nothing after it: with frames that all parse it is still
    [OPEN]; once an ending input follows them it returns, [CLOSED],
    and whatever input comes later makes no difference. *)
Theorem coroutine_stops_at_first_ending_input
    handshake pre incoming send_raises rest ws v w :
  all_parse json_loads pre →
  ends_loop json_loads incoming →
  websocket_location json_loads json_dumps handshake
      (pre ++ (incoming, send_raises) :: rest) ws v w
    = websocket_location json_loads json_dumps handshake
        (pre ++ [(incoming, send_raises)]) ws v w
  ∧ (websocket_location json_loads json_dumps (Returned tt)
       (pre ++ (incoming, send_raises) :: rest) ws v w).1 = Returned CLOSED
  ∧ (websocket_location json_loads json_dumps (Returned tt) pre ws v w).1
      = Returned OPEN.
Proof.
  intros Hpre Hend. unfold websocket_location, bind. split_and!.
  - destruct (connect handshake ws v w) as [[[]|e] w1]; [|done].
    rewrite !receive_loop_app by done. by apply receive_loop_rest_unread.
  - rewrite connect_accepted. rewrite receive_loop_app by done.
    match goal with |- context [receive_loop _ _ (_ :: rest) _ _ ?w2] =>
      destruct (receive_loop_ending incoming send_raises rest ws v w2 Hend) as [e ->]
    end. done.
  - rewrite connect_accepted.
    match goal with |- context [receive_loop _ _ pre _ _ ?w1] =>
      destruct (receive_loop_all_parse pre ws v w1 Hpre) as (evs & locs & -> & _)
    end. done.
Qed.

(** X5. A whole session gives the registry back: a websocket that was
    not listed connects, sends frames that parse, and then its loop
    ends, by whatever input. The registry is then, key for key, what
    it was before the websocket connected (the vehicle's key having
    been absent or non-empty), whatever comes after on that socket. *)
Theorem session_restores_registry pre incoming send_raises rest ws v w :
  ws ∉ connections w v →
  active_connections w !! v ≠ Some [] →
  all_parse json_loads pre →
  ends_loop json_loads incoming →
  active_connections
    (websocket_location json_loads json_dumps (Returned tt)
       (pre ++ (incoming, send_raises) :: rest) ws v w).2
    = active_connections w.
Proof.
  intros Hfresh Hne Hpre Hend. unfold websocket_location, bind.
  rewrite connect_accepted. rewrite receive_loop_app by done.
  match goal with |- context [receive_loop _ _ pre _ _ ?w1] =>
    destruct (receive_loop_all_parse pre ws v w1 Hpre) as (evs & locs & -> & _)
  end.
  match goal with |- context [receive_loop _ _ (_ :: rest) _ _ ?w2] =>
    destruct (receive_loop_ending incoming send_raises rest ws v w2 Hend) as [e ->]
  end.
  rewrite except_clauses_closed_form. simpl. by apply registry_round_trip.
Qed.

(** ** The location cache *)

Lemma turn_cache incoming send_raises ws v w :
  vehicle_locations (turn json_loads json_dumps incoming send_raises ws v w).2
    = match incoming with
      | Returned data =>
          match json_loads data with
          | Some location => <[v := location]> (vehicle_locations w)
          | None => vehicle_locations w
          end
      | Raised _ => vehicle_locations w
      end.
Proof.
  destruct incoming as [data|e].
  - destruct (json_loads data) as [location|] eqn:Hdata.
    + rewrite (turn_parsed _ _ _ _ _ _ _ _ Hdata). by rewrite broadcast_closed_form.
    + rewrite turn_malformed by done. by rewrite except_clauses_closed_form.
  - rewrite turn_raised. by rewrite except_clauses_closed_form.
Qed.

Lemma connect_cache handshake ws v w :
  vehicle_locations (connect handshake ws v w).2 = vehicle_locations w.
Proof.
  destruct handshake as [[]|e]; [by rewrite connect_accepted|by rewrite connect_refused].
Qed.

Lemma step_cache s i v :
  is_Some (vehicle_locations (world s) !! v) →
  is_Some (vehicle_locations (world (step json_loads json_dumps s i)) !! v).
Proof.
  intros Hv. destruct i as [ws v' handshake|ws incoming send_raises]; simpl.
  - destruct (sessions s !! ws); [done|].
    pose proof (connect_cache handshake ws v' (world s)) as Hc.
    destruct (connect handshake ws v' (world s)) as [r w']. simpl in *. by rewrite Hc.
  - destruct (sessions s !! ws) as [[v' []]|]; try done.
    pose proof (turn_cache incoming send_raises ws v' (world s)) as Hc.
    destruct (turn json_loads json_dumps incoming send_raises ws v' (world s))
      as [r w']. simpl in *. rewrite Hc.
    destruct incoming as [data|e]; [|done].
    destruct (json_loads data); [|done].
    destruct (decide (v' = v)) as [->|Hne].
    + rewrite lookup_insert_eq. eauto.
    + by rewrite lookup_insert_ne.
Qed.

(** X7. The cache only grows. Once [vehicle_locations] holds a position
    for a vehicle it holds one for good, whatever handshakes and frames
    follow: nothing in the module deletes an entry, not even the
    disconnection of the vehicle's last connection. *)
Theorem cache_entries_persist s (inputs : list Input) v :
  is_Some (vehicle_locations (world s) !! v) →
  is_Some (vehicle_locations (world (run json_loads json_dumps s inputs)) !! v).
Proof.
  revert s. induction inputs as [|i inputs IH]; intros s Hv; [done|].
  simpl. apply IH. by apply step_cache.
Qed.

(** X8. Only a frame that parses writes the cache, and only at its own
    vehicle: [connect], [disconnect] and [broadcast] leave
    [vehicle_locations] as it is, and a turn of a connection of one
    vehicle leaves the entry of every other vehicle untouched. *)
Theorem cache_written_only_at_own_vehicle
    w ws v v' handshake incoming send_raises message :
  v ≠ v' →
  vehicle_locations (connect handshake ws v w).2 = vehicle_locations w
  ∧ vehicle_locations (disconnect ws v w).2 = vehicle_locations w
  ∧ vehicle_locations (broadcast send_raises v message w).2 = vehicle_locations w
  ∧ vehicle_locations (turn json_loads json_dumps incoming send_raises ws v w).2 !! v'
      = vehicle_locations w !! v'.
Proof.
  intros Hne. split_and!.
  - apply connect_cache.
  - by rewrite disconnect_closed_form.
  - by rewrite broadcast_closed_form.
  - rewrite turn_cache. destruct incoming as [data|e]; [|done].
    destruct (json_loads data); [|done]. by rewrite lookup_insert_ne.
Qed.

(** ** Every state the server reaches *)

(** X9. In every state the server reaches, the registry lists exactly
    the websockets whose coroutine waits in its receive loop, each
    under its own vehicle and exactly once there, and no key holds an
    empty list: no duplicate, no leftover of a closed connection. *)
Theorem registry_lists_open_connections (inputs : list Input) ws v :
  let s := run json_loads json_dumps boot inputs in
  (ws ∈ connections (world s) v ↔ sessions s !! ws = Some (v, OPEN))
  ∧ occurrences ws (connections (world s) v) ≤ 1
  ∧ active_connections (world s) !! v ≠ Some [].
Proof.
  intros s. destruct (consistent_run json_loads json_dumps inputs) as [Htidy Hreg].
  split_and!.
  - apply Hreg.
  - apply reachable_listed_once.
  - apply reachable_no_empty_list.
Qed.

End MoreFacts.


(** ** The further properties on concrete inputs *)

Lemma session_two_positions_parse : all_parse Flat.loads Session.two_positions.
Proof.
  repeat constructor; simpl; vm_compute; discriminate.
Defined.

Lemma connect_then_disconnect_restores_witness :
  (Session.dave ∉ connections Demo.viewers 1)
  ∧ active_connections Demo.viewers !! 1%Z ≠ Some []
  ∧ active_connections
      (disconnect Session.dave 1
         (connect (Returned tt) Session.dave 1 Demo.viewers).2).2
      = active_connections Demo.viewers.
Proof.
  assert (Hfresh : Session.dave ∉ connections Demo.viewers 1) by evaluate.
  assert (Hlist : active_connections Demo.viewers !! 1%Z ≠ Some [])
    by (vm_compute; discriminate).
  split; [exact Hfresh|]. split; [exact Hlist|].
  exact (connect_then_disconnect_restores Demo.viewers Session.dave 1 Hfresh Hlist).
Defined.

Lemma coroutine_stops_at_first_ending_input_witness :
  all_parse Flat.loads Session.two_positions
  ∧ ends_loop Flat.loads (Raised WebSocketDisconnect)
  ∧ (websocket_location Flat.loads Flat.dumps (Returned tt)
       (Session.two_positions
          ++ (Raised WebSocketDisconnect, all_alive) :: Session.two_positions)
       Session.dave 1 Demo.viewers).1 = Returned CLOSED.
Proof.
  split; [exact session_two_positions_parse|]. split; [exact I|].
  exact (proj1 (proj2 (coroutine_stops_at_first_ending_input Flat.loads Flat.dumps
           (Returned tt) Session.two_positions (Raised WebSocketDisconnect) all_alive
           Session.two_positions Session.dave 1 Demo.viewers
           session_two_positions_parse I))).
Defined.

Lemma session_restores_registry_witness :
  (Session.dave ∉ connections Demo.viewers 1)
  ∧ active_connections Demo.viewers !! 1%Z ≠ Some []
  ∧ all_parse Flat.loads Session.two_positions
  ∧ ends_loop Flat.loads (Returned "not-json")
  ∧ active_connections
      (websocket_location Flat.loads Flat.dumps (Returned tt)
         (Session.two_positions ++ (Returned "not-json", all_alive) :: [])
         Session.dave 1 Demo.viewers).2
      = active_connections Demo.viewers.
Proof.
  assert (Hfresh : Session.dave ∉ connections Demo.viewers 1) by evaluate.
  assert (Hlist : active_connections Demo.viewers !! 1%Z ≠ Some [])
    by (vm_compute; discriminate).
  assert (Hend : ends_loop Flat.loads (Returned "not-json")) by reflexivity.
  split; [exact Hfresh|]. split; [exact Hlist|].
  split; [exact session_two_positions_parse|]. split; [exact Hend|].
  exact (session_restores_registry Flat.loads Flat.dumps Session.two_positions
           (Returned "not-json") all_alive [] Session.dave 1 Demo.viewers
           Hfresh Hlist session_two_positions_parse Hend).
Defined.

Lemma cache_entries_persist_witness :
  is_Some (vehicle_locations (world Session.after_position) !! 1%Z)
  ∧ is_Some
      (vehicle_locations
         (world (run Flat.loads Flat.dumps Session.after_position
                   [Frame Demo.alice (Raised WebSocketDisconnect) all_alive;
                    Frame Demo.bob (Raised WebSocketDisconnect) all_alive]))
         !! 1%Z).
Proof.
  assert (Hcached : is_Some (vehicle_locations (world Session.after_position) !! 1%Z)).
  { exists Flat.position. vm_compute. reflexivity. }
  split; [exact Hcached|].
  exact (cache_entries_persist Flat.loads Flat.dumps Session.after_position _ 1 Hcached).
Defined.

Lemma cache_written_only_at_own_vehicle_witness :
  (1 ≠ 2)%Z
  ∧ vehicle_locations
      (turn Flat.loads Flat.dumps (Returned Flat.position_text) all_alive
            Demo.alice 1 (world Session.after_position)).2 !! 2%Z
      = vehicle_locations (world Session.after_position) !! 2%Z.
Proof.
  assert (Hne : (1 ≠ 2)%Z) by done.
  split; [exact Hne|].
  exact (proj2 (proj2 (proj2 (cache_written_only_at_own_vehicle Flat.loads Flat.dumps
           (world Session.after_position) Demo.alice 1 2 (Returned tt)
           (Returned Flat.position_text) all_alive "m" Hne)))).
Defined.

(** * Properties of the vehicle management API *)

#[local] Set Warnings "-inexact-float".

Lemma elem_of_fmap_Str (r : string) (roles : list string) :
  Vehicle.Str r ∈ (Vehicle.Str <$> roles) ↔ r ∈ roles.
Proof.
  rewrite list_elem_of_fmap. split.
  - by intros (r' & [= ->] & Hin).
  - intros Hin. by exists r.
Qed.

(** X11. The role check lets a caller through exactly when the [role]
    of the token's payload is a string of the route's list, and then
    hands the payload on unchanged. A payload whose role is anything
    else is refused with 403; a payload without a [role] makes the
    check itself fail with [KeyError]. *)
Theorem role_check_passes_iff_role_listed
    (roles : list string) (user : gmap string Vehicle.claim) :
  (∀ user', Vehicle.require_role roles user = Vehicle.Ok user' ↔
            user' = user ∧ ∃ r, user !! "role" = Some (Vehicle.Str r) ∧ r ∈ roles)
  ∧ (∀ c, user !! "role" = Some c → c ∉ (Vehicle.Str <$> roles) →
          Vehicle.require_role roles user
            = Vehicle.Fail (Vehicle.HTTPException 403 "Access denied"))
  ∧ (user !! "role" = None →
     Vehicle.require_role roles user = Vehicle.Fail (Vehicle.KeyError "role")).
Proof.
  unfold Vehicle.require_role. split_and!.
  - intros user'. destruct (user !! "role") as [c|] eqn:Hrole.
    + case_bool_decide as Hin; split.
      * intros [= <-]. split; [done|].
        apply list_elem_of_fmap in Hin as (r & -> & Hr). eauto.
      * by intros [-> _].
      * done.
      * intros [_ (r & [= ->] & Hr)]. by apply elem_of_fmap_Str in Hr.
    + split; [done|]. by intros [_ (r & ? & _)].
  - intros c -> Hout. by rewrite bool_decide_eq_false_2.
  - by intros ->.
Qed.

(** X12. Whoever may write may read: a payload that passes the role
    check of the POST routes passes the check of the GET routes. The
    converse fails for the role [viewer] alone, which passes the GET
    checks and is refused with 403 by the POST checks. *)
Theorem write_access_implies_read_access (user : gmap string Vehicle.claim) :
  (Vehicle.require_role (Vehicle.route_roles Vehicle.POST) user = Vehicle.Ok user →
   Vehicle.require_role (Vehicle.route_roles Vehicle.GET) user = Vehicle.Ok user)
  ∧ (user !! "role" = Some (Vehicle.Str "viewer") →
     Vehicle.require_role (Vehicle.route_roles Vehicle.GET) user = Vehicle.Ok user
     ∧ Vehicle.require_role (Vehicle.route_roles Vehicle.POST) user
         = Vehicle.Fail (Vehicle.HTTPException 403 "Access denied"))
  ∧ (Vehicle.require_role (Vehicle.route_roles Vehicle.GET) user = Vehicle.Ok user →
     Vehicle.require_role (Vehicle.route_roles Vehicle.POST) user ≠ Vehicle.Ok user →
     user !! "role" = Some (Vehicle.Str "viewer")).
Proof.
  unfold Vehicle.require_role. split_and!.
  - destruct (user !! "role") as [c|]; [|done].
    case_bool_decide as Hpost; [|done]. intros _.
    rewrite bool_decide_eq_true_2; [done|].
    simpl in *. rewrite !elem_of_cons in *. tauto.
  - intros ->. split; [by rewrite bool_decide_eq_true_2 by (simpl; set_solver)|].
    rewrite bool_decide_eq_false_2; [done|].
    simpl. rewrite !elem_of_cons. intros [[=]|[[=]|[]%elem_of_nil]].
  - destruct (user !! "role") as [c|]; [|done].
    case_bool_decide as Hget; [|done]. intros _.
    case_bool_decide as Hpost; [done|]. intros _.
    simpl in *. rewrite !elem_of_cons in *.
    destruct Hget as [->|[->|[->|[]%elem_of_nil]]]; [tauto..|done].
Qed.

(** X13. The location multiplier is one of the four rates of the
    table, never below 1.0 and never above 1.5; there is a surcharge
    exactly when the location, whatever its letter case, is
    [bangalore], [hyderabad] or [remote], and any other text, a longer
    address included, is charged the plain rate. *)
Theorem location_multiplier_range (location : string) :
  let m := Vehicle.get_location_multiplier location in
  (m = 1.0%float ∨ m = 1.1%float ∨ m = 1.2%float ∨ m = 1.5%float)
  ∧ PrimFloat.leb 1.0 m = true
  ∧ PrimFloat.leb m 1.5 = true
  ∧ (PrimFloat.ltb 1.0 m = true ↔
     Vehicle.lower location ∈ ["bangalore"; "hyderabad"; "remote"]).
Proof.
  intros m. subst m. unfold Vehicle.get_location_multiplier.
  destruct (Vehicle.LOCATION_MULTIPLIER !! Vehicle.lower location) as [x|] eqn:Hx.
  - apply elem_of_list_to_map_2 in Hx. simpl.
    rewrite !elem_of_cons in Hx.
    destruct Hx as [[= -> ->]|[[= -> ->]|[[= -> ->]|[[= -> ->]|[]%elem_of_nil]]]];
      (split_and!; [tauto|reflexivity|reflexivity|]);
      (split;
       [ intros Hlt; first [discriminate Hlt | rewrite !elem_of_cons; tauto]
       | intros Hin; first
           [ reflexivity
           | exfalso; rewrite !elem_of_cons in Hin;
             destruct Hin as [[=]|[[=]|[[=]|[]%elem_of_nil]]] ] ]).
  - apply not_elem_of_list_to_map_2 in Hx. simpl in *.
    split_and!; [tauto|reflexivity|reflexivity|].
    split; [discriminate|]. intros Hin. exfalso. apply Hx.
    rewrite !elem_of_cons in *. tauto.
Qed.

Lemma distance_is_always_the_fallback_eq true_divide gmaps pickup drop :
  Vehicle.calculate_distance_km true_divide gmaps pickup drop = 15.0%float.
Proof. unfold Vehicle.calculate_distance_km. by destruct gmaps. Qed.

(** X14. With the key the module is shipped with, the distance is the
    fallback of 15 km for every pickup and drop, whatever the maps
    client is and whatever it would answer: the client is not asked. *)
Theorem distance_is_always_the_fallback true_divide gmaps pickup drop :
  Vehicle.calculate_distance_km true_divide gmaps pickup drop = 15.0%float.
Proof. apply distance_is_always_the_fallback_eq. Qed.

(** X15. A trip is created only for a driver and a vehicle that
    exist. When either is missing the answer is 404 and, as with any
    failure, the database is what it was. On success exactly one row
    is appended to the trips, carrying the ids and the two locations
    of the request, and no other table changes. *)
Theorem create_trip_needs_driver_and_vehicle true_divide gmaps data db :
  let r := Vehicle.create_trip true_divide gmaps data db in
  (r.1 = Vehicle.Fail (Vehicle.HTTPException 404 "Driver or Vehicle not found") ↔
   Vehicle.drivers db !! Vehicle.driver_id data = None
   ∨ Vehicle.vehicles db !! Vehicle.vehicle_id data = None)
  ∧ (∀ f, r.1 = Vehicle.Fail f → r.2 = db)
  ∧ (∀ trip, r.1 = Vehicle.Ok trip →
       is_Some (Vehicle.drivers db !! Vehicle.driver_id data)
       ∧ is_Some (Vehicle.vehicles db !! Vehicle.vehicle_id data)
       ∧ Vehicle.trips r.2 = Vehicle.trips db ++ [trip]
       ∧ Vehicle.users r.2 = Vehicle.users db
       ∧ Vehicle.drivers r.2 = Vehicle.drivers db
       ∧ Vehicle.vehicles r.2 = Vehicle.vehicles db
       ∧ Vehicle.trip_driver_id trip = Vehicle.driver_id data
       ∧ Vehicle.trip_vehicle_id trip = Vehicle.vehicle_id data
       ∧ Vehicle.trip_pickup_location trip = Vehicle.pickup_location data
       ∧ Vehicle.trip_drop_location trip = Vehicle.drop_location data).
Proof.
  intros r. subst r. unfold Vehicle.create_trip.
  destruct (Vehicle.drivers db !! Vehicle.driver_id data) as [driver|];
    destruct (Vehicle.vehicles db !! Vehicle.vehicle_id data) as [vehicle|];
    try (split_and!; [split; [intros _; tauto|done]|done|done]).
  destruct (Vehicle.fits 200 (Vehicle.pickup_location data)
            && Vehicle.fits 200 (Vehicle.drop_location data)); simpl.
  - split_and!; [split; [done|by intros [?|?]]|done|].
    intros trip [= <-]. simpl. split_and!; eauto.
  - split_and!; [split; [done|by intros [?|?]]|done|done].
Qed.

(** X16. The amount [create_trip] computes for a trip is 15 km times
    the vehicle's rate times the multiplier of the pickup location,
    multiplied in that order, and the distance it records is 15 km: as
    the module is shipped the drop location, the driver and the maps
    client have no part in the price. *)
Theorem trip_amount_ignores_route true_divide gmaps data db trip vehicle :
  (Vehicle.create_trip true_divide gmaps data db).1 = Vehicle.Ok trip →
  Vehicle.vehicles db !! Vehicle.vehicle_id data = Some vehicle →
  Vehicle.distance trip = 15.0%float
  ∧ Vehicle.total_amount trip =
      PrimFloat.mul (PrimFloat.mul 15.0 (Vehicle.rate_per_km vehicle))
        (Vehicle.get_location_multiplier (Vehicle.pickup_location data)).
Proof.
  unfold Vehicle.create_trip. intros Hok Hvehicle. rewrite Hvehicle in Hok.
  destruct (Vehicle.drivers db !! Vehicle.driver_id data) as [driver|]; [|done].
  destruct (Vehicle.fits 200 (Vehicle.pickup_location data)
            && Vehicle.fits 200 (Vehicle.drop_location data)); [|done].
  simpl in Hok. injection Hok as <-. simpl.
  by rewrite distance_is_always_the_fallback_eq.
Qed.

Lemma find_snoc {A} (f : A → bool) (l : list A) (x : A) :
  Forall (λ y, f y = false) l → f x = true → List.find f (l ++ [x]) = Some x.
Proof.
  induction 1 as [|y l Hy Hl IH]; intros Hx; simpl.
  - by rewrite Hx.
  - rewrite Hy. by apply IH.
Qed.

Lemma existsb_Forall_false {A} (f : A → bool) (l : list A) :
  Forall (λ y, f y = false) l → existsb f l = false.
Proof. induction 1 as [|y l Hy Hl IH]; simpl; [done|]. by rewrite Hy. Qed.

(** X17. Registration asks for no token and takes the role as given.
    Provided the name is free and the values fit their columns, the
    account is stored; logging in with the same name and password
    then yields a token which, for the next 60 minutes, passes the role
    check of every route whose list holds the role that was asked for
    at registration -- [admin] as well as any other. (For a password
    library that verifies what it hashed, a collation under which a
    name equals itself, and a token library that decodes an unexpired
    token to the payload it encoded.) *)
Theorem registered_account_gets_its_chosen_role {Jwt : Type}
    (same_name : string → string → bool)
    (pwd_hash : string → string) (pwd_verify : string → string → bool)
    (jwt_encode : gmap string Vehicle.claim → Jwt)
    (jwt_decode : Z → Jwt → option (gmap string Vehicle.claim))
    (data : Vehicle.RegisterSchema) (db : Vehicle.Db) (now : Z) :
  (∀ n, same_name n n = true) →
  (∀ p, pwd_verify p (pwd_hash p) = true) →
  (∀ payload exp t, payload !! "exp" = Some (Vehicle.Num exp) → (t ≤ exp)%Z →
                    jwt_decode t (jwt_encode payload) = Some payload) →
  Vehicle.fits 50 (Vehicle.register_username data) = true →
  Vehicle.fits 200 (pwd_hash (Vehicle.register_password data)) = true →
  Vehicle.fits 20 (Vehicle.register_role data) = true →
  Forall (λ u, same_name (Vehicle.username u) (Vehicle.register_username data) = false)
         (Vehicle.users db) →
  ∃ db' token,
    Vehicle.register same_name pwd_hash data db
      = (Vehicle.Ok "User registered successfully", db')
    ∧ Vehicle.login same_name pwd_verify jwt_encode now
        (Vehicle.register_username data) (Vehicle.register_password data) db'
        = Vehicle.Ok token
    ∧ ∀ t roles, (t ≤ now + 3600)%Z → Vehicle.register_role data ∈ roles →
        ∃ user, Vehicle.authorize jwt_decode roles t token = Vehicle.Ok user
                ∧ user !! "role" = Some (Vehicle.Str (Vehicle.register_role data)).
Proof.
  intros Hrefl Hverify Hjwt Hname Hhash Hrole Hfree.
  eexists _, _. split_and!.
  - unfold Vehicle.register, Vehicle.hash_password. simpl.
    rewrite Hname, Hhash, Hrole. simpl.
    by rewrite existsb_Forall_false.
  - unfold Vehicle.login. simpl.
    rewrite find_snoc by (simpl; auto). simpl.
    unfold Vehicle.verify_password, Vehicle.hash_password. by rewrite Hverify.
  - intros t roles Ht Hin. eexists. split.
    + unfold Vehicle.authorize, Vehicle.get_current_user, Vehicle.create_access_token.
      erewrite Hjwt; [|apply lookup_insert_eq|exact Ht].
      unfold Vehicle.require_role.
      rewrite lookup_insert_ne, lookup_insert_ne, lookup_singleton_eq by done.
      rewrite bool_decide_eq_true_2; [done|]. by apply elem_of_fmap_Str.
    + by rewrite lookup_insert_ne, lookup_insert_ne, lookup_singleton_eq.
Qed.

(** ** The API on concrete inputs *)

Example multiplier_of_bangalore :
  Vehicle.get_location_multiplier "Bangalore" = 1.2%float.
Proof. vm_compute. reflexivity. Qed.

Example multiplier_of_an_address :
  Vehicle.get_location_multiplier "Bangalore Airport" = 1.0%float.
Proof. vm_compute. reflexivity. Qed.

Lemma role_check_passes_iff_role_listed_witness :
  VehicleDemo.viewer_token !! "role" = Some (Vehicle.Str "viewer")
  ∧ (Vehicle.Str "viewer" ∉ (Vehicle.Str <$> ["admin"; "manager"]))
  ∧ Vehicle.require_role ["admin"; "manager"] VehicleDemo.viewer_token
      = Vehicle.Fail (Vehicle.HTTPException 403 "Access denied").
Proof.
  assert (Hrole : VehicleDemo.viewer_token !! "role" = Some (Vehicle.Str "viewer"))
    by (vm_compute; reflexivity).
  assert (Hout : Vehicle.Str "viewer" ∉ (Vehicle.Str <$> ["admin"; "manager"]))
    by evaluate.
  split; [exact Hrole|]. split; [exact Hout|].
  exact (proj1 (proj2 (role_check_passes_iff_role_listed ["admin"; "manager"]
           VehicleDemo.viewer_token)) _ Hrole Hout).
Defined.

Lemma write_access_implies_read_access_witness :
  VehicleDemo.viewer_token !! "role" = Some (Vehicle.Str "viewer")
  ∧ Vehicle.require_role (Vehicle.route_roles Vehicle.GET) VehicleDemo.viewer_token
      = Vehicle.Ok VehicleDemo.viewer_token
  ∧ Vehicle.require_role (Vehicle.route_roles Vehicle.POST) VehicleDemo.viewer_token
      = Vehicle.Fail (Vehicle.HTTPException 403 "Access denied").
Proof.
  assert (Hrole : VehicleDemo.viewer_token !! "role" = Some (Vehicle.Str "viewer"))
    by (vm_compute; reflexivity).
  split; [exact Hrole|].
  exact (proj1 (proj2 (write_access_implies_read_access VehicleDemo.viewer_token)) Hrole).
Defined.

Lemma create_trip_needs_driver_and_vehicle_witness :
  (Vehicle.create_trip (λ _ _, 0%float) None VehicleDemo.ride VehicleDemo.db).1
    = Vehicle.Ok (Vehicle.mkTrip 1 7 "Bangalore" "Mysore" 15.0%float 45.0%float)
  ∧ Vehicle.trips
      (Vehicle.create_trip (λ _ _, 0%float) None VehicleDemo.ride VehicleDemo.db).2
      = [Vehicle.mkTrip 1 7 "Bangalore" "Mysore" 15.0%float 45.0%float].
Proof.
  assert (Hok : (Vehicle.create_trip (λ _ _, 0%float) None
                   VehicleDemo.ride VehicleDemo.db).1
                = Vehicle.Ok (Vehicle.mkTrip 1 7 "Bangalore" "Mysore"
                                15.0%float 45.0%float))
    by (vm_compute; reflexivity).
  split; [exact Hok|].
  destruct (proj2 (proj2 (create_trip_needs_driver_and_vehicle (λ _ _, 0%float) None
              VehicleDemo.ride VehicleDemo.db)) _ Hok) as (_ & _ & Htrips & _).
  exact Htrips.
Defined.

Lemma trip_amount_ignores_route_witness :
  (Vehicle.create_trip (λ _ _, 0%float) VehicleDemo.maps_client
     VehicleDemo.ride VehicleDemo.db).1
    = Vehicle.Ok (Vehicle.mkTrip 1 7 "Bangalore" "Mysore" 15.0%float 45.0%float)
  ∧ Vehicle.vehicles VehicleDemo.db !! 7%Z = Some VehicleDemo.van
  ∧ Vehicle.distance
      (Vehicle.mkTrip 1 7 "Bangalore" "Mysore" 15.0%float 45.0%float) = 15.0%float
  ∧ Vehicle.total_amount
      (Vehicle.mkTrip 1 7 "Bangalore" "Mysore" 15.0%float 45.0%float)
      = PrimFloat.mul (PrimFloat.mul 15.0 (Vehicle.rate_per_km VehicleDemo.van))
          (Vehicle.get_location_multiplier "Bangalore").
Proof.
  assert (Hok : (Vehicle.create_trip (λ _ _, 0%float) VehicleDemo.maps_client
                   VehicleDemo.ride VehicleDemo.db).1
                = Vehicle.Ok (Vehicle.mkTrip 1 7 "Bangalore" "Mysore"
                                15.0%float 45.0%float))
    by (vm_compute; reflexivity).
  assert (Hvan : Vehicle.vehicles VehicleDemo.db !! 7%Z = Some VehicleDemo.van)
    by (vm_compute; reflexivity).
  split; [exact Hok|]. split; [exact Hvan|].
  exact (trip_amount_ignores_route (λ _ _, 0%float) VehicleDemo.maps_client
           VehicleDemo.ride VehicleDemo.db _ VehicleDemo.van Hok Hvan).
Defined.

Lemma demo_tokens_round_trip (payload : gmap string Vehicle.claim) (exp t : Z) :
  payload !! "exp" = Some (Vehicle.Num exp) → (t ≤ exp)%Z →
  VehicleDemo.jwt_decode t (VehicleDemo.jwt_encode payload) = Some payload.
Proof.
  intros Hexp Ht. unfold VehicleDemo.jwt_decode, VehicleDemo.jwt_encode.
  rewrite Hexp. by rewrite bool_decide_eq_true_2.
Defined.

Lemma demo_password_verifies (p : string) :
  VehicleDemo.pwd_verify p (VehicleDemo.pwd_hash p) = true.
Proof. unfold VehicleDemo.pwd_verify. apply String.eqb_refl. Defined.

Lemma registered_account_gets_its_chosen_role_witness :
  Vehicle.fits 50 "mallory" = true
  ∧ Vehicle.fits 20 "admin" = true
  ∧ ∃ db' token,
      Vehicle.register VehicleDemo.same_name VehicleDemo.pwd_hash
        VehicleDemo.newcomer VehicleDemo.db
        = (Vehicle.Ok "User registered successfully", db')
      ∧ Vehicle.login VehicleDemo.same_name VehicleDemo.pwd_verify
          VehicleDemo.jwt_encode 1000 "mallory" "secret" db' = Vehicle.Ok token
      ∧ ∃ user,
          Vehicle.authorize VehicleDemo.jwt_decode
            (Vehicle.route_roles Vehicle.POST) 4600 token = Vehicle.Ok user
          ∧ user !! "role" = Some (Vehicle.Str "admin").
Proof.
  split; [reflexivity|]. split; [reflexivity|].
  destruct (registered_account_gets_its_chosen_role
              VehicleDemo.same_name VehicleDemo.pwd_hash VehicleDemo.pwd_verify
              VehicleDemo.jwt_encode VehicleDemo.jwt_decode
              VehicleDemo.newcomer VehicleDemo.db 1000
              String.eqb_refl demo_password_verifies demo_tokens_round_trip
              eq_refl eq_refl eq_refl (Forall_nil_2 _))
    as (db' & token & Hregister & Hlogin & Hpass).
  exists db', token. split; [exact Hregister|]. split; [exact Hlogin|].
  apply (Hpass 4600%Z (Vehicle.route_roles Vehicle.POST)); [done|].
  simpl. by left.
Defined.

(** * The coroutines, [await] by [await]: properties *)

Lemma targets_app evs evs' : targets (evs ++ evs') = targets evs ++ targets evs'.
Proof. apply omap_app. Qed.

Lemma occurrences_not_elem_of ws l : ws ∉ l → occurrences ws l = 0.
Proof.
  intros Hout. unfold occurrences.
  destruct (filter (λ c, c = ws) l) as [|x f] eqn:Hf; [done|].
  assert (Hx : x ∈ filter (λ c, c = ws) l) by (rewrite Hf; by left).
  by apply list_elem_of_filter in Hx as [-> ?].
Qed.

Section InterleavingFacts.

Context {Json : Type}.
Context (json_loads : string → option Json).
Context (json_dumps : Json → string).

Implicit Types (w : World (Json:=Json)) (s : Conc (Json:=Json)) (ws c : positive) (v : Z).

#[local] Arguments except_clauses : simpl never.

Lemma send_returns raised c message w :
  try_except (send_text (λ _, raised) c message)
             (λ e, print (ErrorBroadcasting e)) w
    = (Returned tt,
       mkWorld (active_connections w) (vehicle_locations w)
               (emitted w ++ send_trace (λ _, raised) message c)).
Proof.
  unfold try_except, send_text, send_trace.
  destruct raised as [e|]; unfold bind, emit, print, emit, raise; simpl; [|done].
  by rewrite <- app_assoc.
Qed.

Lemma before_broadcast_cases incoming ws v w :
  before_broadcast json_loads json_dumps incoming ws v w =
    match incoming with
    | Returned data =>
        match json_loads data with
        | Some location =>
            (Returned (json_dumps location),
             mkWorld (active_connections w)
                     (<[v := location]> (vehicle_locations w)) (emitted w))
        | None => (Raised JSONDecodeError, w)
        end
    | Raised e => (Raised e, w)
    end.
Proof.
  unfold before_broadcast, bind, receive_text, lift, loads.
  destruct incoming as [data|e]; [|done].
  by destruct (json_loads data).
Qed.

Lemma resume_loop_not_finished v message index w :
  resume_loop v message index w ≠ Finished.
Proof. unfold resume_loop. by destruct (connections w v !! index). Qed.

Lemma resume_loop_target v message index w message' index' c :
  resume_loop v message index w = Sending message' index' c → c ∈ connections w v.
Proof.
  unfold resume_loop. destruct (connections w v !! index) as [c'|] eqn:Hc; [|done].
  intros [= _ _ <-]. by eapply list_elem_of_lookup_2.
Qed.

(** ** The invariant *)

Lemma orderly_start : orderly (Json:=Json) start.
Proof.
  split_and!.
  - intros v l. simpl. by rewrite lookup_empty.
  - intros v ws. unfold connections. simpl. rewrite !lookup_empty. simpl.
    split; [by intros ?%elem_of_nil|]. by intros (? & ? & _).
  - intros ws v message index c. simpl. by rewrite lookup_empty.
Qed.

Lemma orderly_retask s ws v p p' w' :
  orderly s →
  coroutines s !! ws = Some (v, p) → p ≠ Finished → p' ≠ Finished →
  active_connections w' = active_connections (cworld s) →
  (∀ message index c, p' = Sending message index c → c ∈ connections w' v) →
  orderly (mkConc w' (<[ws := (v, p')]> (coroutines s))).
Proof.
  intros (Htidy & Hreg & Hsend) Hws Hp Hp' Hac Htarget.
  assert (Hconn : ∀ v0, connections w' v0 = connections (cworld s) v0)
    by (intros v0; unfold connections; by rewrite Hac).
  split_and!; simpl.
  - by rewrite Hac.
  - intros v0 c. rewrite Hconn, Hreg. destruct (decide (c = ws)) as [->|Hc].
    + rewrite lookup_insert_eq, Hws. split.
      * intros (ph & [= -> ->] & _). eauto.
      * intros (ph & [= -> ->] & _). eauto.
    + by rewrite lookup_insert_ne.
  - intros ws0 v0 message index c.
    assert (Hkeep : ∀ ph, coroutines s !! c = Some (v0, ph) →
              ∃ phase, <[ws := (v, p')]> (coroutines s) !! c = Some (v0, phase)).
    { intros ph Hc. destruct (decide (c = ws)) as [->|Hne].
      - rewrite Hws in Hc. injection Hc as <- <-.
        rewrite lookup_insert_eq. eauto.
      - rewrite lookup_insert_ne by done. eauto. }
    destruct (decide (ws0 = ws)) as [->|Hne].
    + rewrite lookup_insert_eq. intros [= <- ->].
      specialize (Htarget _ _ _ eq_refl). rewrite Hconn in Htarget.
      apply Hreg in Htarget as (ph & Hc & _). by eapply Hkeep.
    + rewrite lookup_insert_ne by done. intros Hsending.
      destruct (Hsend _ _ _ _ _ Hsending) as [ph Hc]. by eapply Hkeep.
Qed.

Lemma orderly_finish s ws v p w' :
  orderly s →
  coroutines s !! ws = Some (v, p) →
  active_connections w' = registry_without ws v (active_connections (cworld s)) →
  orderly (mkConc w' (<[ws := (v, Finished)]> (coroutines s))).
Proof.
  intros (Htidy & Hreg & Hsend) Hws Hac. split_and!; simpl.
  - rewrite Hac. by apply tidy_registry_without.
  - intros v0 c. unfold connections at 1. rewrite Hac.
    destruct (decide (v = v0)) as [<-|Hv], (decide (c = ws)) as [->|Hc];
      rewrite ?lookup_insert_eq, ?lookup_insert_ne by done.
    + rewrite default_registry_without. split; [|by intros (? & [= <-] & ?)].
      intros Hin. exfalso. revert Hin. apply NoDup_discard.
      destruct (active_connections (cworld s) !! v) as [l|] eqn:Hl;
        [by eapply Htidy|constructor].
    + rewrite default_registry_without, elem_of_discard_ne by done. apply Hreg.
    + rewrite lookup_registry_without_ne by done.
      split; [|by intros (? & [= _ <-] & ?)].
      intros (ph & Hc & _)%Hreg. congruence.
    + rewrite lookup_registry_without_ne by done. apply Hreg.
  - intros ws0 v0 message index c.
    destruct (decide (ws0 = ws)) as [->|Hne]; [by rewrite lookup_insert_eq|].
    rewrite lookup_insert_ne by done. intros Hsending.
    destruct (Hsend _ _ _ _ _ Hsending) as [ph Hc].
    destruct (decide (c = ws)) as [->|Hcw].
    + rewrite Hws in Hc. injection Hc as <- <-. rewrite lookup_insert_eq. eauto.
    + rewrite lookup_insert_ne by done. eauto.
Qed.

Lemma orderly_handshake s ws v handshake :
  orderly s → orderly (wake json_loads json_dumps s (Handshake ws v handshake)).
Proof.
  intros (Htidy & Hreg & Hsend). simpl.
  destruct (coroutines s !! ws) as [?|] eqn:Hs; [done|].
  assert (Hfresh : ∀ v', ws ∉ connections (cworld s) v').
  { intros v' (ph & Hph & _)%Hreg. congruence. }
  assert (Hkeep : ∀ ws0 v0 message index c ph0,
            <[ws := (v, ph0)]> (coroutines s) !! ws0 = Some (v0, Sending message index c) →
            (∀ m i c', ph0 ≠ Sending m i c') →
            ∃ phase, <[ws := (v, ph0)]> (coroutines s) !! c = Some (v0, phase)).
  { intros ws0 v0 message index c ph0 Hsending Hph0.
    destruct (decide (ws0 = ws)) as [->|Hne].
    - rewrite lookup_insert_eq in Hsending. injection Hsending as _ Hbad.
      by destruct (Hph0 message index c).
    - rewrite lookup_insert_ne in Hsending by done.
      destruct (Hsend _ _ _ _ _ Hsending) as [ph Hc].
      rewrite lookup_insert_ne by congruence. eauto. }
  destruct handshake as [[]|e].
  - rewrite connect_accepted. split_and!; simpl.
    + apply tidy_insert_snoc; [done|apply Hfresh].
    + intros v' c. unfold connections at 1. simpl.
      destruct (decide (v = v')) as [<-|Hv], (decide (c = ws)) as [->|Hc];
        rewrite ?lookup_insert_eq, ?lookup_insert_ne by done; simpl.
      * rewrite elem_of_app, list_elem_of_singleton. split; [eauto|by right].
      * rewrite elem_of_app, list_elem_of_singleton, <- Hreg.
        split; [by intros [?|?]|by left].
      * split; [by intros ?%Hfresh|]. by intros (? & [= ?] & _).
      * apply Hreg.
    + intros ws0 v0 message index c Hsending.
      eapply Hkeep; [exact Hsending|done].
  - rewrite connect_refused. split_and!; simpl; [done| |].
    + intros v' c. destruct (decide (c = ws)) as [->|Hc].
      * rewrite lookup_insert_eq. split; [by intros ?%Hfresh|].
        by intros (? & [= _ <-] & ?).
      * rewrite lookup_insert_ne by done. apply Hreg.
    + intros ws0 v0 message index c Hsending.
      eapply Hkeep; [exact Hsending|done].
Qed.

Lemma orderly_wake s i : orderly s → orderly (wake json_loads json_dumps s i).
Proof.
  intros Hs. destruct i as [ws v handshake|ws incoming|ws raised].
  - by apply orderly_handshake.
  - simpl. destruct (coroutines s !! ws) as [[v []]|] eqn:Hws; try done.
    rewrite before_broadcast_cases.
    destruct incoming as [data|e]; [destruct (json_loads data) as [location|]|].
    + eapply orderly_retask; [done|done|done| |done|].
      * case_bool_decide; [apply resume_loop_not_finished|done].
      * intros message index c. case_bool_decide; [|done].
        apply resume_loop_target.
    + eapply orderly_finish; [done|done|]. by rewrite except_clauses_closed_form.
    + eapply orderly_finish; [done|done|]. by rewrite except_clauses_closed_form.
  - simpl. destruct (coroutines s !! ws) as [[v [|message index c|]]|] eqn:Hws;
      try done.
    rewrite send_returns. simpl.
    eapply orderly_retask; [done|done|done| |done|].
    + apply resume_loop_not_finished.
    + intros message' index' c'. apply resume_loop_target.
Qed.

Lemma orderly_schedule_from s (inputs : list Wake) :
  orderly s → orderly (schedule json_loads json_dumps s inputs).
Proof.
  revert s. induction inputs as [|i inputs IH]; intros s Hs; [done|].
  simpl. apply IH. by apply orderly_wake.
Qed.

Lemma orderly_schedule (inputs : list Wake) :
  orderly (schedule json_loads json_dumps start inputs).
Proof. apply orderly_schedule_from, orderly_start. Qed.

(** While a coroutine is in its broadcast its websocket is listed, so
    the key of its vehicle is in the registry and the list under the
    key is the one its loop walks. *)
Lemma sending_keeps_its_key (inputs : list Wake) ws v message index c :
  let s := schedule json_loads json_dumps start inputs in
  coroutines s !! ws = Some (v, Sending message index c) →
  ws ∈ connections (cworld s) v ∧ is_Some (active_connections (cworld s) !! v).
Proof.
  intros s Hws. destruct (orderly_schedule inputs) as (_ & Hreg & _).
  assert (Hin : ws ∈ connections (cworld s) v) by (apply Hreg; eauto).
  split; [done|]. unfold connections in Hin.
  destruct (active_connections (cworld s) !! v); [eauto|by apply elem_of_nil in Hin].
Qed.

(** X19. However the coroutines take turns, [await] by [await], the
    registry lists under a vehicle exactly the websockets whose
    coroutine was started for that vehicle, got through the handshake
    and has not returned; none is listed twice and no key holds an
    empty list. *)
Theorem registry_lists_running_coroutines (wakes : list Wake) v ws :
  let s := schedule json_loads json_dumps start wakes in
  (ws ∈ connections (cworld s) v ↔
     ∃ phase, coroutines s !! ws = Some (v, phase) ∧ phase ≠ Finished)
  ∧ occurrences ws (connections (cworld s) v) ≤ 1
  ∧ active_connections (cworld s) !! v ≠ Some [].
Proof.
  intros s. destruct (orderly_schedule wakes) as (Htidy & Hreg & _).
  fold s in Htidy, Hreg. split; [apply Hreg|]. split.
  - apply occurrences_NoDup. unfold connections.
    destruct (active_connections (cworld s) !! v) as [l|] eqn:Hv;
      [by eapply Htidy|constructor].
  - intros Hv. by destruct (Htidy v [] Hv).
Qed.

(** ** Deregistration *)

Lemma disconnect_idempotent_tidy w ws v :
  tidy (active_connections w) →
  ∃ w1 w2, disconnect ws v w = (Returned tt, w1)
    ∧ disconnect ws v w1 = (Returned tt, w2)
    ∧ active_connections w2 = active_connections w1
    ∧ (ws ∉ connections w v → active_connections w1 = active_connections w).
Proof.
  intros Htidy. eexists _, _. split; [apply disconnect_closed_form|].
  split; [apply disconnect_closed_form|]. simpl. split.
  - apply registry_without_idempotent, occurrences_NoDup.
    destruct (active_connections w !! v) as [l|] eqn:Hv;
      [by eapply Htidy|constructor].
  - intros Hout. apply registry_without_unlisted; [done|].
    intros Hv. by destruct (Htidy v [] Hv).
Qed.

(** C6. [disconnect] is idempotent. In every state the server reaches,
    whichever way its coroutines took turns, and for every websocket
    and vehicle: [disconnect] returns normally, a second call right
    after it returns normally too and leaves the registry as the first
    call left it, and for a websocket that is not listed under the
    vehicle -- the vehicle's key being absent or not -- the call
    leaves the registry unchanged. *)
Theorem disconnect_is_idempotent (wakes : list Wake) (inputs : list Input) w ws v :
  w = cworld (schedule json_loads json_dumps start wakes)
  ∨ w = world (run json_loads json_dumps boot inputs) →
  ∃ w1 w2, disconnect ws v w = (Returned tt, w1)
    ∧ disconnect ws v w1 = (Returned tt, w2)
    ∧ active_connections w2 = active_connections w1
    ∧ (ws ∉ connections w v → active_connections w1 = active_connections w).
Proof.
  intros [->| ->]; apply disconnect_idempotent_tidy.
  - apply (orderly_schedule wakes).
  - apply (consistent_run json_loads json_dumps inputs).
Qed.

(** ** Vehicles *)

(** C9. State is partitioned by vehicle. In every state the server
    reaches, whichever way its coroutines took turns, and for distinct
    vehicles [v] and [v']: [connect] and [disconnect] called for [v]
    leave the entry of [v'] as it is; and whatever a coroutine that
    works for [v] does when it is woken -- registering, reading a
    frame and starting its broadcast, going on with the broadcast
    after a send, deregistering -- leaves the entry of [v'] as it is
    and calls [send_text] on no connection registered under [v']. *)
Theorem vehicles_do_not_interact (wakes : list Wake) v v' ws handshake i :
  let s := schedule json_loads json_dumps start wakes in
  v ≠ v' →
  active_connections (connect handshake ws v (cworld s)).2 !! v'
    = active_connections (cworld s) !! v'
  ∧ active_connections (disconnect ws v (cworld s)).2 !! v'
      = active_connections (cworld s) !! v'
  ∧ (works_for s i v →
     active_connections (cworld (wake json_loads json_dumps s i)) !! v'
       = active_connections (cworld s) !! v'
     ∧ ∀ c, c ∈ connections (cworld s) v' →
            c ∉ targets (emitted_since (cworld s)
                           (cworld (wake json_loads json_dumps s i)))).
Proof.
  intros s Hne.
  assert (Hconnect : ∀ ws0 h, active_connections (connect h ws0 v (cworld s)).2 !! v'
                              = active_connections (cworld s) !! v').
  { intros ws0 [[]|e].
    - rewrite connect_accepted. simpl. by rewrite lookup_insert_ne.
    - by rewrite connect_refused. }
  split; [apply Hconnect|]. split.
  { rewrite disconnect_closed_form. simpl. by apply lookup_registry_without_ne. }
  destruct (orderly_schedule wakes) as (_ & Hreg & Hsend). fold s in Hreg, Hsend.
  assert (Hsilent : ∀ w' lines,
            emitted w' = emitted (cworld s) ++ lines → targets lines = [] →
            ∀ c, c ∉ targets (emitted_since (cworld s) w')).
  { intros w' lines Hw' Hnone c. rewrite (emitted_since_app _ _ _ Hw'), Hnone.
    apply not_elem_of_nil. }
  assert (Hstill : ∀ c, c ∉ targets (emitted_since (cworld s) (cworld s))).
  { intros c. apply (Hsilent _ []); [by rewrite app_nil_r|done]. }
  destruct i as [ws0 v0 h|ws0 incoming|ws0 raised]; simpl.
  - intros <-. destruct (coroutines s !! ws0); [by split; [|intros c _; apply Hstill]|].
    pose proof (Hconnect ws0 h) as Hframe.
    destruct h as [[]|e].
    + rewrite connect_accepted in *. simpl in *. split; [done|].
      intros c _. by eapply Hsilent.
    + rewrite connect_refused in *. simpl. split; [done|].
      intros c _. apply Hstill.
  - intros [phase Hws0]. rewrite Hws0.
    destruct phase; [|by split; [|intros c _; apply Hstill]..].
    rewrite before_broadcast_cases.
    destruct incoming as [data|e]; [destruct (json_loads data) as [location|]|];
      simpl.
    + split; [done|]. intros c _.
      apply (Hsilent _ []); [by rewrite app_nil_r|done].
    + rewrite except_clauses_closed_form. simpl.
      split; [by apply lookup_registry_without_ne|].
      intros c _. by eapply Hsilent.
    + rewrite except_clauses_closed_form. simpl.
      split; [by apply lookup_registry_without_ne|].
      intros c _. eapply Hsilent; [done|]. by destruct e.
  - intros [phase Hws0]. rewrite Hws0.
    destruct phase as [|message index c0|]; [by split; [|intros c _; apply Hstill]| |
      by split; [|intros c _; apply Hstill]].
    rewrite send_returns. simpl. split; [done|].
    intros c Hc. erewrite emitted_since_app by (simpl; reflexivity).
    assert (Hcc0 : c ≠ c0).
    { intros ->. destruct (Hsend _ _ _ _ _ Hws0) as [ph Hc0].
      apply Hreg in Hc as (ph' & Hc' & _). congruence. }
    unfold send_trace. destruct raised; simpl;
      by intros ->%list_elem_of_singleton.
Qed.

(** ** A send that fails *)


(** ** A broadcast that nothing interrupts *)

Lemma sends_uninterrupted ws v message send_raises
    (t : gmap positive (Z * Phase)) ac (locs : gmap Z Json) l k out :
  default [] (ac !! v) = l →
  schedule json_loads json_dumps
    (mkConc (mkWorld ac locs out)
            (<[ws := (v, resume_loop v message k (mkWorld ac locs out))]> t))
    (map (λ c, SendDone ws (send_raises c)) (drop k l))
  = mkConc (mkWorld ac locs (out ++ broadcast_trace send_raises message (drop k l)))
           (<[ws := (v, Receiving)]> t).
Proof.
  intros Hl. remember (length l - k) as n eqn:Hn.
  revert k out Hn. induction n as [|n IH]; intros k out Hn.
  - rewrite drop_ge by lia. unfold resume_loop, connections. simpl.
    rewrite Hl, lookup_ge_None_2 by lia.
    unfold broadcast_trace. simpl. by rewrite app_nil_r.
  - destruct (lookup_lt_is_Some_2 l k) as [c Hc]; [lia|].
    rewrite (drop_S _ _ _ Hc). simpl.
    unfold resume_loop at 1, connections at 1. simpl. rewrite Hl, Hc.
    rewrite lookup_insert_eq, send_returns. simpl. rewrite insert_insert_eq.
    rewrite IH by lia. unfold broadcast_trace. simpl.
    unfold send_trace at 1 3. by rewrite <- app_assoc.
Qed.

(** When nothing else runs between a frame and the end of its
    broadcast, the coroutine does what [turn] computes in one go. *)
Lemma uninterrupted_turn s ws v data location send_raises :
  coroutines s !! ws = Some (v, Receiving) →
  json_loads data = Some location →
  schedule json_loads json_dumps s
    (uninterrupted ws (connections (cworld s) v) (Returned data) send_raises)
  = mkConc (turn json_loads json_dumps (Returned data) send_raises ws v (cworld s)).2
           (coroutines s).
Proof.
  intros Hws Hdata. unfold uninterrupted. simpl.
  rewrite Hws, before_broadcast_cases, Hdata.
  rewrite (turn_parsed _ _ _ _ _ _ _ _ Hdata), broadcast_closed_form. simpl.
  destruct s as [[ac locs out] t]. simpl in *.
  assert (Hphase :
    (if bool_decide (is_Some (ac !! v))
     then resume_loop v (json_dumps location) 0 (mkWorld ac (<[v:=location]> locs) out)
     else Receiving)
    = resume_loop v (json_dumps location) 0 (mkWorld ac (<[v:=location]> locs) out)).
  { case_bool_decide as Hkey; [done|]. unfold resume_loop, connections. simpl.
    destruct (ac !! v); [by destruct Hkey; eauto|done]. }
  rewrite Hphase.
  pose proof (sends_uninterrupted ws v (json_dumps location) send_raises t ac
                (<[v:=location]> locs) (connections (mkWorld ac locs out) v) 0 out
                eq_refl) as Hsends.
  rewrite drop_0 in Hsends. rewrite Hsends. unfold connections. simpl.
  by rewrite (insert_id _ _ _ Hws).
Qed.

Lemma schedule_app s (inputs inputs' : list Wake) :
  schedule json_loads json_dumps s (inputs ++ inputs')
  = schedule json_loads json_dumps (schedule json_loads json_dumps s inputs) inputs'.
Proof. apply foldl_app. Qed.

Lemma solo_cons ws l incoming send_raises
    (script : list (Result string * (positive → option exn))) :
  solo ws l ((incoming, send_raises) :: script)
  = uninterrupted ws l incoming send_raises ++ solo ws l script.
Proof. reflexivity. Qed.

Lemma solo_refines script s ws v :
  all_parse json_loads script →
  coroutines s !! ws = Some (v, Receiving) →
  schedule json_loads json_dumps s (solo ws (connections (cworld s) v) script)
  = mkConc (receive_loop json_loads json_dumps script ws v (cworld s)).2
           (coroutines s).
Proof.
  revert s. induction script as [|[incoming send_raises] script IH];
    intros s Hall Hws.
  - simpl. by destruct s.
  - apply Forall_cons in Hall as [Hhead Hall]. simpl in Hhead.
    destruct (keeps_loop_parses _ _ Hhead) as (data & location & -> & Hdata).
    rewrite solo_cons, schedule_app, (uninterrupted_turn _ _ _ _ _ _ Hws Hdata).
    simpl. unfold bind.
    rewrite (turn_parsed _ _ _ _ _ _ _ _ Hdata), broadcast_closed_form. simpl.
    match goal with |- schedule _ _ ?s1 _ = _ =>
      pose proof (IH s1 Hall Hws) as IH1 end.
    unfold connections in *. simpl in *. exact IH1.
Qed.

(** X6. Frames reach a viewer in the order they were sent, none lost
    and none doubled, as long as nothing else runs while a broadcast
    waits for its sends: when each frame of the sender parses and each
    broadcast runs uninterrupted, a connection that is listed once
    under the vehicle and whose sends do not raise is handed exactly
    [json.dumps(json.loads(data))] for each frame, in the order of the
    frames. *)
Theorem frames_arrive_in_order_when_uninterrupted script s ws v c :
  coroutines s !! ws = Some (v, Receiving) →
  all_parse json_loads script →
  alive_throughout c script →
  occurrences c (connections (cworld s) v) = 1 →
  received_by c
    (emitted_since (cworld s)
       (cworld (schedule json_loads json_dumps s
                  (solo ws (connections (cworld s) v) script))))
    = payloads json_loads json_dumps script.
Proof.
  intros Hws Hall Halive Honce. rewrite (solo_refines _ _ _ _ Hall Hws). simpl.
  destruct (receive_loop_all_parse json_loads json_dumps script ws v (cworld s) Hall)
    as (evs & locs & -> & Hreceived).
  erewrite emitted_since_app by (simpl; reflexivity).
  rewrite Hreceived, Honce by done. clear.
  induction (payloads json_loads json_dumps script) as [|m ms IH]; [done|].
  simpl. f_equal. exact IH.
Qed.

(** X10. In every state the server reaches, whichever way its
    coroutines took turns, a frame that parses and whose broadcast then
    runs uninterrupted is delivered exactly once to every connection of
    the sender's vehicle that is still open and whose send does not
    raise, and not at all to the connections of any other vehicle. *)
Theorem frame_delivered_once_when_uninterrupted
    (wakes : list Wake) ws v c phase c' v' phase' data location send_raises :
  let s := schedule json_loads json_dumps start wakes in
  coroutines s !! ws = Some (v, Receiving) →
  coroutines s !! c = Some (v, phase) → phase ≠ Finished →
  coroutines s !! c' = Some (v', phase') → v ≠ v' →
  json_loads data = Some location →
  send_raises c = None →
  let s' := schedule json_loads json_dumps s
              (uninterrupted ws (connections (cworld s) v) (Returned data) send_raises) in
  received_by c (emitted_since (cworld s) (cworld s')) = [json_dumps location]
  ∧ received_by c' (emitted_since (cworld s) (cworld s')) = []
  ∧ coroutines s' = coroutines s.
Proof.
  intros s Hws Hc Hphase Hc' Hne Hdata Halive s'. subst s'.
  rewrite (uninterrupted_turn _ _ _ _ _ _ Hws Hdata). simpl.
  rewrite (turn_parsed _ _ _ _ _ _ _ _ Hdata), broadcast_closed_form. simpl.
  erewrite emitted_since_app by (simpl; reflexivity).
  rewrite !received_by_broadcast_trace, Halive.
  destruct (orderly_schedule wakes) as (Htidy & Hreg & _). fold s in Htidy, Hreg.
  assert (Hone : occurrences c (connections (cworld s) v) = 1).
  { assert (Hin : c ∈ connections (cworld s) v) by (apply Hreg; eauto).
    pose proof (occurrences_elem_of c _ Hin).
    assert (occurrences c (connections (cworld s) v) ≤ 1); [|lia].
    apply occurrences_NoDup. unfold connections.
    destruct (active_connections (cworld s) !! v) as [l|] eqn:Hv;
      [by eapply Htidy|constructor]. }
  assert (Hnone : occurrences c' (connections (cworld s) v) = 0).
  { apply occurrences_not_elem_of. intros (ph & Hph & _)%Hreg. congruence. }
  unfold connections in *. simpl. rewrite Hone, Hnone.
  split_and!; [done|by destruct (send_raises c')|done].
Qed.

End InterleavingFacts.

(** ** Connections that leave during a broadcast *)

(** C4. The code does not deliver to the other N-1 connections when a
    connection leaves while the broadcast waits for a send. A failed
    send is caught where it happens and the loop goes on, but the loop
    walks the registry's own list by index while other coroutines
    change it. Three connections are
    listed; [alice]'s broadcast has sent to herself and waits for the
    send to [bob] when [bob]'s coroutine ends and takes him off the
    list; the send to him raises and is caught; the iterator, at index
    2, is then past the end of the two connections that remain and the
    broadcast is over. No error reaches [alice]'s coroutine, which
    waits for its next frame, but [carol] -- listed, open, her sends
    not failing -- was never sent the frame. *)
Theorem live_viewer_skipped_after_failed_send :
  connections (cworld Race.connected) 1 = [Demo.alice; Demo.bob; Demo.carol]
  ∧ Race.after_dead_viewer
      = schedule Flat.loads Flat.dumps Race.connected
          [Received Demo.alice (Returned Flat.position_text);
           SendDone Demo.alice None;
           Received Demo.bob (Raised WebSocketDisconnect);
           SendDone Demo.alice (Some RuntimeError)]
  ∧ emitted_since (cworld Race.connected) (cworld Race.after_dead_viewer)
      = [TextSent Demo.alice (Flat.dumps Flat.position);
         Printed (VehicleDisconnected 1);
         TextFailed Demo.bob (Flat.dumps Flat.position) RuntimeError;
         Printed (ErrorBroadcasting RuntimeError)]
  ∧ coroutines Race.after_dead_viewer !! Demo.alice = Some (1%Z, Receiving)
  ∧ coroutines Race.after_dead_viewer !! Demo.carol = Some (1%Z, Receiving)
  ∧ Demo.carol ∈ connections (cworld Race.after_dead_viewer) 1
  ∧ received_by Demo.carol (emitted (cworld Race.after_dead_viewer)) = [].
Proof.
  split_and!; first [by vm_compute | evaluate].
Qed.

(** C5. The code does not hand a frame to every connection of the
    vehicle when a connection leaves while the broadcast waits for a
    send. [bob], [alice] and [carol] are listed in that order; [alice]
    sends a position that parses; her broadcast waits for the send to
    [bob], the first of the list, when [bob]'s coroutine ends and takes
    him off the list. The remaining connections move up, the iterator
    goes on at index 1, which is now [carol], and the broadcast ends
    without a send to [alice]: the sender, listed and open, does not
    receive her own frame, though no send raised. *)
Theorem sender_skipped_when_viewer_leaves :
  connections (cworld Race.connected_bob_first) 1
    = [Demo.bob; Demo.alice; Demo.carol]
  ∧ Flat.loads Flat.position_text = Some Flat.position
  ∧ Race.after_early_leaver
      = schedule Flat.loads Flat.dumps Race.connected_bob_first
          [Received Demo.alice (Returned Flat.position_text);
           Received Demo.bob (Raised WebSocketDisconnect);
           SendDone Demo.alice None;
           SendDone Demo.alice None]
  ∧ emitted_since (cworld Race.connected_bob_first) (cworld Race.after_early_leaver)
      = [Printed (VehicleDisconnected 1);
         TextSent Demo.bob (Flat.dumps Flat.position);
         TextSent Demo.carol (Flat.dumps Flat.position)]
  ∧ coroutines Race.after_early_leaver !! Demo.alice = Some (1%Z, Receiving)
  ∧ Demo.alice ∈ connections (cworld Race.after_early_leaver) 1
  ∧ received_by Demo.alice (emitted (cworld Race.after_early_leaver)) = [].
Proof.
  split_and!; first [by vm_compute | evaluate].
Qed.

(** ** The reachable states on concrete inputs *)

Lemma disconnect_is_idempotent_witness :
  cworld Race.after_dead_viewer
    = cworld (schedule Flat.loads Flat.dumps start Race.dead_viewer)
  ∧ (Demo.bob ∉ connections (cworld Race.after_dead_viewer) 1)
  ∧ active_connections
      (disconnect Demo.carol 1 (disconnect Demo.carol 1
         (cworld Race.after_dead_viewer)).2).2
      = active_connections (disconnect Demo.carol 1 (cworld Race.after_dead_viewer)).2
  ∧ active_connections (disconnect Demo.bob 1 (cworld Race.after_dead_viewer)).2
      = active_connections (cworld Race.after_dead_viewer).
Proof.
  assert (Hout : Demo.bob ∉ connections (cworld Race.after_dead_viewer) 1) by evaluate.
  split; [reflexivity|]. split; [exact Hout|]. split.
  - destruct (disconnect_is_idempotent Flat.loads Flat.dumps Race.dead_viewer []
                (cworld Race.after_dead_viewer) Demo.carol 1 (or_introl eq_refl))
      as (w1 & w2 & Hfirst & Hsecond & Hsame & _).
    rewrite Hfirst. simpl. rewrite Hsecond. exact Hsame.
  - destruct (disconnect_is_idempotent Flat.loads Flat.dumps Race.dead_viewer []
                (cworld Race.after_dead_viewer) Demo.bob 1 (or_introl eq_refl))
      as (w1 & w2 & Hfirst & _ & _ & Hnoop).
    rewrite Hfirst. exact (Hnoop Hout).
Defined.

Lemma vehicles_do_not_interact_witness :
  (1 ≠ 2)%Z
  ∧ works_for Race.in_broadcast (SendDone Demo.alice None) 1
  ∧ Demo.carol ∈ connections (cworld Race.in_broadcast) 2
  ∧ active_connections
      (cworld (wake Flat.loads Flat.dumps Race.in_broadcast (SendDone Demo.alice None)))
      !! 2%Z = active_connections (cworld Race.in_broadcast) !! 2%Z
  ∧ (Demo.carol ∉
       targets (emitted_since (cworld Race.in_broadcast)
                  (cworld (wake Flat.loads Flat.dumps Race.in_broadcast
                             (SendDone Demo.alice None))))).
Proof.
  assert (Hne : (1 ≠ 2)%Z) by done.
  assert (Hworks : works_for Race.in_broadcast (SendDone Demo.alice None) 1).
  { eexists. vm_compute. reflexivity. }
  assert (Hin : Demo.carol ∈ connections (cworld Race.in_broadcast) 2) by evaluate.
  destruct (vehicles_do_not_interact Flat.loads Flat.dumps Race.in_broadcast_wakes
              1 2 Demo.alice Demo.accepted (SendDone Demo.alice None) Hne)
    as (_ & _ & Hwake).
  destruct (Hwake Hworks) as [Hentry Hsilent].
  split; [exact Hne|]. split; [exact Hworks|]. split; [exact Hin|].
  split; [exact Hentry|exact (Hsilent Demo.carol Hin)].
Defined.

Lemma frames_arrive_in_order_when_uninterrupted_witness :
  coroutines Race.at_rest !! Demo.alice = Some (1%Z, Receiving)
  ∧ all_parse Flat.loads Session.two_positions
  ∧ alive_throughout Demo.bob Session.two_positions
  ∧ occurrences Demo.bob (connections (cworld Race.at_rest) 1) = 1
  ∧ received_by Demo.bob
      (emitted_since (cworld Race.at_rest)
         (cworld (schedule Flat.loads Flat.dumps Race.at_rest
                    (solo Demo.alice (connections (cworld Race.at_rest) 1)
                          Session.two_positions))))
      = payloads Flat.loads Flat.dumps Session.two_positions.
Proof.
  assert (Hws : coroutines Race.at_rest !! Demo.alice = Some (1%Z, Receiving))
    by (vm_compute; reflexivity).
  assert (Halive : alive_throughout Demo.bob Session.two_positions)
    by (repeat constructor).
  assert (Honce : occurrences Demo.bob (connections (cworld Race.at_rest) 1) = 1)
    by (vm_compute; reflexivity).
  split; [exact Hws|]. split; [exact session_two_positions_parse|].
  split; [exact Halive|]. split; [exact Honce|].
  exact (frames_arrive_in_order_when_uninterrupted Flat.loads Flat.dumps
           Session.two_positions Race.at_rest Demo.alice 1 Demo.bob
           Hws session_two_positions_parse Halive Honce).
Defined.

Lemma frame_delivered_once_when_uninterrupted_witness :
  coroutines (schedule Flat.loads Flat.dumps start Race.handshakes) !! Demo.alice
    = Some (1%Z, Receiving)
  ∧ coroutines (schedule Flat.loads Flat.dumps start Race.handshakes) !! Demo.bob
      = Some (1%Z, Receiving)
  ∧ coroutines (schedule Flat.loads Flat.dumps start Race.handshakes) !! Demo.carol
      = Some (2%Z, Receiving)
  ∧ Flat.loads Flat.position_text = Some Flat.position
  ∧ received_by Demo.bob
      (emitted_since (cworld Race.at_rest)
         (cworld (schedule Flat.loads Flat.dumps Race.at_rest
                    (uninterrupted Demo.alice (connections (cworld Race.at_rest) 1)
                       (Returned Flat.position_text) all_alive))))
      = [Flat.dumps Flat.position]
  ∧ received_by Demo.carol
      (emitted_since (cworld Race.at_rest)
         (cworld (schedule Flat.loads Flat.dumps Race.at_rest
                    (uninterrupted Demo.alice (connections (cworld Race.at_rest) 1)
                       (Returned Flat.position_text) all_alive))))
      = [].
Proof.
  assert (Ha : coroutines (schedule Flat.loads Flat.dumps start Race.handshakes)
                 !! Demo.alice = Some (1%Z, Receiving)) by (vm_compute; reflexivity).
  assert (Hb : coroutines (schedule Flat.loads Flat.dumps start Race.handshakes)
                 !! Demo.bob = Some (1%Z, Receiving)) by (vm_compute; reflexivity).
  assert (Hc : coroutines (schedule Flat.loads Flat.dumps start Race.handshakes)
                 !! Demo.carol = Some (2%Z, Receiving)) by (vm_compute; reflexivity).
  assert (Hdata : Flat.loads Flat.position_text = Some Flat.position)
    by (vm_compute; reflexivity).
  split; [exact Ha|]. split; [exact Hb|]. split; [exact Hc|]. split; [exact Hdata|].
  destruct (frame_delivered_once_when_uninterrupted Flat.loads Flat.dumps
              Race.handshakes Demo.alice 1 Demo.bob Receiving Demo.carol 2 Receiving
              Flat.position_text Flat.position all_alive
              Ha Hb (ltac:(discriminate)) Hc (ltac:(discriminate)) Hdata eq_refl)
    as (Hbob & Hcarol & _).
  split; [exact Hbob|exact Hcarol].
Defined.

